(** * pdb_reordername: reordering atom records by first-seen atom-name order

    A shallow embedding of [run] from [pdbtools/pdb_reordername.py] and the
    properties of it that the specification states.

    Modelling conventions.
    - A line is a [string]; a character is a code point below 256.
    - [fhandle] is a line iterator: the second [for] loop of [run] resumes
      where the first one stopped.  It is a finite [list string] that the
      loops consume from the front.
    - [resname_set] is a [gset string]; [ref_atom_order] is a
      [gmap string (list string)] (only looked up and updated by key);
      [residue_lines] is iterated with [.items()], so it is an
      association list in insertion order (the order [.items()] follows
      from Python 3.7 on).
    - The generator is drained by its consumer; the sequence of [yield]ed
      lines is the list carried in the state.
    - [d[k]] on a missing key and [l[0]] on an empty list raise; these are
      the [KeyError] and [IndexError] results of the [result] monad. *)

From stdpp Require Import gmap strings list fin_maps.
From Stdlib Require Import Ascii String.

Open Scope string_scope.
Open Scope list_scope.
Open Scope stdpp_scope.

(** ** Python string primitives *)

(** [c.isspace()] for a code point below 256. *)
Definition isspace (c : ascii) : bool :=
  let n := nat_of_ascii c in
  (((9 <=? n) && (n <=? 13)) || ((28 <=? n) && (n <=? 32))
   || (n =? 133) || (n =? 160))%nat.

(** [s.lstrip()] *)
Fixpoint lstrip (s : string) : string :=
  match s with
  | EmptyString => EmptyString
  | String c s' => if isspace c then lstrip s' else s
  end.

(** [s.rstrip()] *)
Fixpoint rstrip (s : string) : string :=
  match s with
  | EmptyString => EmptyString
  | String c s' =>
      match rstrip s' with
      | EmptyString => if isspace c then EmptyString else String c EmptyString
      | r => String c r
      end
  end.

(** [s.strip()] *)
Definition strip (s : string) : string := rstrip (lstrip s).

(** [s[lo:hi]] for literal bounds [0 <= lo <= hi]: the characters at the
    indices [lo .. hi-1] that exist. *)
Definition slice (lo hi : nat) (s : string) : string :=
  String.substring lo (hi - lo) s.

(** [s.startswith(t)] for a tuple [t] of prefixes. *)
Definition startswith (s : string) (t : list string) : bool :=
  existsb (fun p => String.prefix p s) t.

(** [x in l] for a list [l] of strings. *)
Definition mem (x : string) (l : list string) : bool :=
  bool_decide (x ∈ l).

Arguments startswith : simpl never.

Definition records : list string := ["ATOM"; "HETATM"; "ANISOU"; "TER"].

(** The three fields [run] reads from a line. *)
Definition atom_name_of (line : string) : string := strip (slice 12 16 line).
Definition resname_of (line : string) : string := strip (slice 17 20 line).
Definition resid_of (line : string) : string := strip (slice 22 26 line).

(** ** Exceptions

    The two exceptions the subscripts of [run] can raise. *)

Inductive exn : Set := KeyError | IndexError.

Inductive result (A : Type) : Type :=
  | Ok (a : A)
  | Raise (e : exn).
Arguments Ok {A} a.
Arguments Raise {A} e.

#[global] Instance result_ret : MRet result := @Ok.
#[global] Instance result_bind : MBind result := λ A B f m,
  match m with
  | Ok a => f a
  | Raise e => Raise e
  end.

(** ** Dictionaries *)

(** [d[k]] on [ref_atom_order] *)
Definition getitem (d : gmap string (list string)) (k : string)
  : result (list string) :=
  match d !! k with
  | Some v => Ok v
  | None => Raise KeyError
  end.

(** [residue_lines]: keys in insertion order, each key once. *)
Abbreviation odict := (list (string * list string)).

Fixpoint od_lookup (k : string) (d : odict) : option (list string) :=
  match d with
  | [] => None
  | (k', v) :: d' => if decide (k' = k) then Some v else od_lookup k d'
  end.

(** [d[k]] on [residue_lines] *)
Definition od_getitem (d : odict) (k : string) : result (list string) :=
  match od_lookup k d with
  | Some v => Ok v
  | None => Raise KeyError
  end.

(** The value stored under [k] becomes [v]; the key keeps its position. *)
Definition od_update (k : string) (v : list string) (d : odict) : odict :=
  map (λ kv, if decide (kv.1 = k) then (k, v) else kv) d.

(** [l[0]] *)
Definition first_item (l : list string) : result string :=
  match l with
  | [] => Raise IndexError
  | x :: _ => Ok x
  end.

(** ** The body of [run] *)

Section Run.
Variable resname_set : gset string.

(** Lines 142-158: the first [for] loop.  It returns the lines it yields,
    [ref_atom_order], [buffer_line] and what is left of [fhandle]. *)
Fixpoint first_loop (fhandle : list string)
    (ref_atom_order : gmap string (list string))
  : result (list string * gmap string (list string)
            * option string * list string) :=
  match fhandle with
  | [] => mret ([], ref_atom_order, None, [])
  | line :: fhandle =>
      if startswith line records then
        let resname := resname_of line in
        if bool_decide (resname ∈ resname_set) then
          let atom_name := atom_name_of line in
          let ref_atom_order :=
            match ref_atom_order !! resname with
            | None => <[resname := []]> ref_atom_order
            | Some _ => ref_atom_order
            end in
          order ← getitem ref_atom_order resname;
          if mem atom_name order then
            mret ([], ref_atom_order, Some line, fhandle)
          else
            '(ys, ref', buffer_line, rest) ←
              first_loop fhandle
                (<[resname := order ++ [atom_name]]> ref_atom_order);
            mret (line :: ys, ref', buffer_line, rest)
        else
          first_loop fhandle ref_atom_order
      else
        '(ys, ref', buffer_line, rest) ← first_loop fhandle ref_atom_order;
        mret (line :: ys, ref', buffer_line, rest)
  end.

(** Lines 167-169 and 177-179: create the bucket when the key is new, then
    append to it. *)
Definition bucket_append (resid line : string) (residue_lines : odict)
  : result odict :=
  let residue_lines :=
    match od_lookup resid residue_lines with
    | None => residue_lines ++ [(resid, [])]
    | Some _ => residue_lines
    end in
  lines ← od_getitem residue_lines resid;
  mret (od_update resid (lines ++ [line]) residue_lines).

(** [if buffer_line:] is false for [None] and for the empty string. *)
Definition truthy (buffer_line : option string) : bool :=
  match buffer_line with
  | None => false
  | Some s => negb (bool_decide (s = ""))
  end.

(** Lines 161-169. *)
Definition buffer_block (buffer_line : option string) (residue_lines : odict)
  : result odict :=
  match buffer_line with
  | Some bl =>
      if truthy buffer_line then
        if startswith bl records then
          let resname := resname_of bl in
          let resid := resid_of bl in
          if bool_decide (resname ∈ resname_set) then
            bucket_append resid bl residue_lines
          else mret residue_lines
        else mret residue_lines
      else mret residue_lines
  | None => mret residue_lines
  end.

(** Lines 172-185: the second [for] loop, over the rest of [fhandle]. *)
Fixpoint second_loop (fhandle : list string) (residue_lines : odict)
    (not_residues_lines : list string) : result (odict * list string) :=
  match fhandle with
  | [] => mret (residue_lines, not_residues_lines)
  | line :: fhandle =>
      if startswith line records then
        let resname := resname_of line in
        let resid := resid_of line in
        if bool_decide (resname ∈ resname_set) then
          residue_lines ← bucket_append resid line residue_lines;
          second_loop fhandle residue_lines not_residues_lines
        else
          second_loop fhandle residue_lines (not_residues_lines ++ [line])
      else
        second_loop fhandle residue_lines (not_residues_lines ++ [line])
  end.

(** Lines 192-196: [sorted_lines] after the loop over [atom_order]. *)
Definition sort_lines (atom_order lines : list string) : list string :=
  fold_left
    (λ sorted_lines atom_name,
       sorted_lines ++ filter (λ line, atom_name_of line = atom_name) lines)
    atom_order [].

(** Lines 189-201: what one bucket yields. *)
Definition emit_bucket (ref_atom_order : gmap string (list string))
    (lines : list string) : result (list string) :=
  first ← first_item lines;
  let resname := resname_of first in
  match ref_atom_order !! resname with
  | Some _ =>
      atom_order ← getitem ref_atom_order resname;
      mret (sort_lines atom_order lines)
  | None => mret lines
  end.

(** Lines 188-201: the loop over [residue_lines.items()]. *)
Fixpoint replay (ref_atom_order : gmap string (list string))
    (residue_lines : odict) : result (list string) :=
  match residue_lines with
  | [] => mret []
  | (resid, lines) :: residue_lines =>
      ys ← emit_bucket ref_atom_order lines;
      zs ← replay ref_atom_order residue_lines;
      mret (ys ++ zs)
  end.

(** Lines 136-185: the state of [run] when the input is exhausted: the
    lines yielded so far, [ref_atom_order], [residue_lines] and
    [not_residues_lines]. *)
Definition collect (fhandle : list string)
  : result (list string * gmap string (list string) * odict * list string) :=
  '(ys, ref_atom_order, buffer_line, fhandle) ← first_loop fhandle ∅;
  residue_lines ← buffer_block buffer_line [];
  '(residue_lines, not_residues_lines) ←
    second_loop fhandle residue_lines [];
  mret (ys, ref_atom_order, residue_lines, not_residues_lines).

(** [run(fhandle, resname_set)], drained: every line it yields, in order. *)
Definition run (fhandle : list string) : result (list string) :=
  '(ys, ref_atom_order, residue_lines, not_residues_lines) ←
    collect fhandle;
  zs ← replay ref_atom_order residue_lines;
  mret (ys ++ zs ++ not_residues_lines).

End Run.

(** ** Descriptions of what the loops compute *)

(** A record line of a selected residue. *)
Definition matching (resname_set : gset string) (line : string) : bool :=
  startswith line records && bool_decide (resname_of line ∈ resname_set).

(** A record line of a residue that is not selected. *)
Definition foreign (resname_set : gset string) (line : string) : bool :=
  startswith line records && negb (bool_decide (resname_of line ∈ resname_set)).

(** The input of the second phase: the line that ended the first loop, then
    the lines after it. *)
Definition phase2_lines (buffer_line : option string) (rest : list string)
  : list string :=
  match buffer_line with
  | Some b => b :: rest
  | None => rest
  end.

(** How the first loop can end: at a record line of a selected residue, or
    with the input exhausted. *)
Definition first_loop_end (resname_set : gset string)
    (buffer_line : option string) (rest : list string) : Prop :=
  match buffer_line with
  | Some b => matching resname_set b
  | None => rest = []
  end.

(** The distinct elements of a list, each at its first occurrence. *)
Fixpoint first_seen (l : list string) : list string :=
  match l with
  | [] => []
  | x :: l' => x :: filter (λ y, y ≠ x) (first_seen l')
  end.

(** The lines of [ms] with sequence id [k], in their order in [ms]. *)
Definition with_resid (k : string) (ms : list string) : list string :=
  filter (λ line, resid_of line = k) ms.

(** The lines of [ms] by sequence id, ids in order of first occurrence. *)
Definition group_by_resid (ms : list string) : odict :=
  (λ k, (k, with_resid k ms)) <$> first_seen (resid_of <$> ms).

(** The lines of [lines] with atom name [a], in their order in [lines]. *)
Definition with_atom (a : string) (lines : list string) : list string :=
  filter (λ line, atom_name_of line = a) lines.

(** One group of lines per atom name of [atom_order], in that order. *)
Definition grouped_by_atom (atom_order lines : list string) : list string :=
  atom_order ≫= (λ a, with_atom a lines).

(** What a bucket yields, as a total function: the groups when the residue
    name of its first line was learned, the bucket as it is otherwise. *)
Definition replay_bucket (ref : gmap string (list string))
    (lines : list string) : list string :=
  match lines with
  | [] => []
  | first :: _ =>
      match ref !! resname_of first with
      | Some atom_order => grouped_by_atom atom_order lines
      | None => lines
      end
  end.

(** Every learned atom order is duplicate-free. *)
Definition orders_nodup (ref : gmap string (list string)) : Prop :=
  map_Forall (λ _ order, NoDup order) ref.

(** Two lines lie in one bucket of [residue_lines]. *)
Definition same_bucket (residue_lines : odict) (l1 l2 : string) : Prop :=
  ∃ k lines, (k, lines) ∈ residue_lines ∧ l1 ∈ lines ∧ l2 ∈ lines.

(** The residue name and the atom name of a line: what the first loop
    looks for a repetition of. *)
Definition atom_key (line : string) : string * string :=
  (resname_of line, atom_name_of line).

(** The atom names of the record lines of the selected residue [r] among
    [lines], in their order. *)
Definition atoms_seen (resname_set : gset string) (r : string)
    (lines : list string) : list string :=
  atom_name_of <$>
    filter (λ l, resname_of l = r) (filter (matching resname_set) lines).

(** [ref] holds, for each residue name, the atom names seen in [lines], and
    no entry for a residue name without a line. *)
Definition learned_from (resname_set : gset string) (lines : list string)
    (ref : gmap string (list string)) : Prop :=
  ∀ r, ref !! r = match atoms_seen resname_set r lines with
                  | [] => None
                  | order => Some order
                  end.

(** ** [check_input]

    The command line is ASCII text.  [sys.stdin.isatty()] and
    [os.path.isfile] are read from an environment; [open] succeeds on a path
    that [os.path.isfile] accepts.  What is written to [sys.stderr] is the
    list of messages, [Usage] being [__doc__]; [sys.exit(1)] ends the
    function with that list. *)

(** [c.upper()] for an ASCII character. *)
Definition upper_char (c : ascii) : ascii :=
  let n := nat_of_ascii c in
  if ((97 <=? n) && (n <=? 122))%nat then ascii_of_nat (n - 32) else c.

(** [s.upper()] for ASCII text. *)
Fixpoint upper (s : string) : string :=
  match s with
  | EmptyString => EmptyString
  | String c s' => String (upper_char c) (upper s')
  end.

(** The text has only ASCII characters. *)
Definition is_ascii (s : string) : bool :=
  forallb (λ c, (nat_of_ascii c <? 128)%nat) (list_ascii_of_string s).

(** [s.split(sep)] for a separator of one character. *)
Fixpoint split_on (sep : ascii) (s : string) : list string :=
  match s with
  | EmptyString => [EmptyString]
  | String c s' =>
      if decide (c = sep) then EmptyString :: split_on sep s'
      else match split_on sep s' with
           | [] => [String c EmptyString]
           | w :: ws => String c w :: ws
           end
  end.

(** [s[1:]] *)
Definition from_1 (s : string) : string :=
  match s with
  | EmptyString => EmptyString
  | String _ s' => s'
  end.

Record env : Type := {
  isatty : bool;             (* sys.stdin.isatty() *)
  isfile : string → bool     (* os.path.isfile *)
}.

Inductive handle : Type :=
  | Stdin
  | File (path : string).

Inductive message : Type :=
  | Usage
  | NoData
  | FileNotFound (path : string)
  | NotAnOption (arg : string)
  | EmptySet
  | InvalidName (elem : string).

(** A function that returns, or leaves through [sys.exit]. *)
Inductive outcome (A : Type) : Type :=
  | Return (a : A)
  | Exit (code : nat) (stderr : list message).
Arguments Return {A} a.
Arguments Exit {A} code stderr.

(** Lines 49-97: the option text and the file handle. *)
Definition read_args (e : env) (args : list string)
  : outcome (string * handle) :=
  match args with
  | [] =>
      if isatty e then Exit 1 [Usage] else Return ("", Stdin)
  | [a0] =>
      if String.prefix "-" a0 then
        if isatty e then Exit 1 [NoData; Usage]
        else Return (from_1 a0, Stdin)
      else
        if negb (isfile e a0) then Exit 1 [FileNotFound a0; Usage]
        else Return ("", File a0)
  | [a0; a1] =>
      if negb (String.prefix "-" a0) then Exit 1 [NotAnOption a0; Usage]
      else if negb (isfile e a1) then Exit 1 [FileNotFound a1; Usage]
      else Return (from_1 a0, File a1)
  | _ => Exit 1 [Usage]
  end.

(** Line 100: [set([o.upper().strip() for o in option.split(',')
    if o.strip()])]. *)
Definition parse_option (option : string) : gset string :=
  list_to_set
    ((λ o, strip (upper o))
       <$> filter (λ o, strip o ≠ "") (split_on "," option)).

(** Lines 101-113.  The loop over the set meets its elements in an order
    that Python does not fix; here it is that of [elements]. *)
Definition validate (fh : handle) (option_set : gset string)
  : outcome (handle * gset string) :=
  if decide (option_set = ∅) then Exit 1 [EmptySet; Usage]
  else
    match List.find (λ elem, (3 <? String.length elem)%nat)
            (elements option_set) with
    | Some elem => Exit 1 [InvalidName elem; Usage]
    | None => Return (fh, option_set)
    end.

(** [check_input(args)] *)
Definition check_input (e : env) (args : list string)
  : outcome (handle * gset string) :=
  match read_args e args with
  | Exit code stderr => Exit code stderr
  | Return (option, fh) => validate fh (parse_option option)
  end.

(** ** [main]

    Each call of [sys.stdout.write] that returns is recorded as the list of
    lines that were joined for it.  The output can break: [pipe] is [None]
    when every call succeeds, and [Some n] when the first [n] calls succeed
    and the next one raises [IOError].  Reading the input succeeds. *)

(** [sys.stdout.write(''.join(_buffer))]: the calls recorded after it, or
    [None] when it raises [IOError]. *)
Definition stdout_write (pipe : option nat) (_buffer : list string)
    (stdout : list (list string)) : option (list (list string)) :=
  match pipe with
  | None => Some (stdout ++ [_buffer])
  | Some n =>
      if (List.length stdout <? n)%nat then Some (stdout ++ [_buffer])
      else None
  end.

(** How the loop over the lines ends: at the end of the lines, with the
    buffer and the calls made, or in the [IOError] of a call. *)
Inductive written : Type :=
  | Done (_buffer : list string) (stdout : list (list string))
  | Broken (stdout : list (list string)).

(** Lines 221-225: the loop over [enumerate(new_pdb)]. *)
Fixpoint write_loop (pipe : option nat) (_buffer_size lineno : nat)
    (new_pdb : list string) (_buffer : list string)
    (stdout : list (list string)) : written :=
  match new_pdb with
  | [] => Done _buffer stdout
  | line :: new_pdb =>
      if (lineno mod _buffer_size =? 0)%nat then
        match stdout_write pipe _buffer stdout with
        | Some stdout =>
            write_loop pipe _buffer_size (S lineno) new_pdb ([] ++ [line])
              stdout
        | None => Broken stdout
        end
      else
        write_loop pipe _buffer_size (S lineno) new_pdb (_buffer ++ [line])
          stdout
  end.

(** How [main] ends: the exit status, the calls of [sys.stdout.write] that
    returned and what went to [sys.stderr]; or an exception of [run] that
    nothing catches. *)
Inductive finished : Type :=
  | Exited (code : nat) (stdout : list (list string)) (stderr : list message)
  | Uncaught (e : exn).

(** [main()], with [sys.argv[1:]] as [args], the lines of standard input
    and the lines of each file.  An [IOError] of a write is caught by
    [except IOError: pass] (lines 229-233), and [main] goes on to
    [pdbfh.close()] and [sys.exit(0)]; [sys.stdout.flush()] writes no line,
    and whether it raises or not [main] ends the same way. *)
Definition main (e : env) (pipe : option nat) (stdin : list string)
    (files : string → list string) (args : list string) : finished :=
  match check_input e args with
  | Exit code stderr => Exited code [] stderr
  | Return (pdbfh, resname_set) =>
      let fhandle :=
        match pdbfh with
        | Stdin => stdin
        | File path => files path
        end in
      match run resname_set fhandle with
      | Raise x => Uncaught x
      | Ok new_pdb =>
          let _buffer_size := 5000%nat in
          match write_loop pipe _buffer_size 0 new_pdb [] [] with
          | Done _buffer stdout =>
              match stdout_write pipe _buffer stdout with
              | Some stdout => Exited 0 stdout []
              | None => Exited 0 stdout []
              end
          | Broken stdout => Exited 0 stdout []
          end
      end
  end.

(** ** Sample lines *)

Definition remark_2 : string := "REMARK   2 RESOLUTION.".
Definition ala_n_1 : string := "ATOM      1  N   ALA A   1 ".
Definition ala_ca_1 : string := "ATOM      2  CA  ALA A   1 ".
Definition gly_n_2 : string := "ATOM      3  N   GLY A   2 ".
Definition gly_ca_3 : string := "ATOM      4  CA  GLY A   3 ".
Definition gly_n_3 : string := "ATOM     10  N   GLY A   3 ".
Definition ala_ca_3 : string := "ATOM      5  CA  ALA A   3 ".
Definition ala_n_3 : string := "ATOM      6  N   ALA A   3 ".
Definition ala_oxt_3 : string := "ATOM      7  OXT ALA A   3 ".
(** The sequence id written flush left, and flush right, in its field. *)
Definition ala_n_left : string := "ATOM      8  N   ALA A7    ".
Definition ala_ca_right : string := "ATOM      9  CA  ALA A   7 ".

(** ** String primitives *)

Lemma slice_short (lo hi : nat) (s : string) :
  (String.length s ≤ lo)%nat → slice lo hi s = "".
Proof.
  unfold slice. generalize (hi - lo) as m. revert lo.
  induction s as [|c s IH]; intros [|lo] m Hlen; simpl in *;
    try lia; try (by destruct m).
  apply IH. lia.
Qed.

Lemma strip_empty : strip "" = "".
Proof. reflexivity. Qed.

Lemma startswith_records_nonempty s : startswith s records → s ≠ "".
Proof. intros H ->. by vm_compute in H. Qed.

(** ** The ordered dictionary *)

Section odict.
Context (f : string → list string).

Lemma od_lookup_tabulate_Some k keys :
  k ∈ keys → od_lookup k ((λ k, (k, f k)) <$> keys) = Some (f k).
Proof.
  induction keys as [|k' keys IH]; intros Hin; [by apply elem_of_nil in Hin|].
  simpl. destruct (decide (k' = k)) as [->|Hne]; [done|].
  apply elem_of_cons in Hin as [->|Hin]; [done|]. by apply IH.
Qed.

Lemma od_lookup_tabulate_None k keys :
  k ∉ keys → od_lookup k ((λ k, (k, f k)) <$> keys) = None.
Proof.
  induction keys as [|k' keys IH]; intros Hin; [done|].
  simpl. apply not_elem_of_cons in Hin as [Hne Hin].
  destruct (decide (k' = k)) as [->|_]; [done|]. by apply IH.
Qed.

Lemma od_update_tabulate k v keys :
  od_update k v ((λ k, (k, f k)) <$> keys)
  = (λ k', (k', if decide (k' = k) then v else f k')) <$> keys.
Proof.
  unfold od_update. rewrite <-list_fmap_compose. apply list_fmap_ext.
  intros _ k' _. simpl. by destruct (decide (k' = k)) as [->|].
Qed.
End odict.

Lemma od_lookup_app k d1 d2 :
  od_lookup k (d1 ++ d2)
  = match od_lookup k d1 with Some v => Some v | None => od_lookup k d2 end.
Proof.
  induction d1 as [|[k' v] d1 IH]; [done|]. simpl.
  by destruct (decide (k' = k)).
Qed.

(** ** First occurrences *)

Lemma elem_of_first_seen x l : x ∈ first_seen l ↔ x ∈ l.
Proof.
  induction l as [|y l IH]; [done|]. simpl.
  rewrite !elem_of_cons, list_elem_of_filter, IH.
  destruct (decide (x = y)); intuition congruence.
Qed.

Lemma NoDup_first_seen l : NoDup (first_seen l).
Proof.
  induction l as [|y l IH]; simpl; [constructor|].
  constructor; [|by apply NoDup_filter].
  rewrite list_elem_of_filter. by intros [? _].
Qed.

Lemma first_seen_snoc l x :
  first_seen (l ++ [x])
  = if decide (x ∈ l) then first_seen l else first_seen l ++ [x].
Proof.
  induction l as [|y l IH]; simpl.
  - done.
  - rewrite IH. destruct (decide (x ∈ l)) as [Hin|Hin].
    + by rewrite decide_True by (by right).
    + rewrite filter_app, filter_cons, filter_nil.
      destruct (decide (x = y)) as [->|Hne].
      * rewrite decide_False by (by intros ?).
        rewrite decide_True by (by left). by rewrite app_nil_r.
      * rewrite decide_True by done.
        by rewrite decide_False by (rewrite elem_of_cons; intuition).
Qed.

(** ** Bucketing *)

Lemma with_resid_snoc k ms l :
  with_resid k (ms ++ [l])
  = with_resid k ms ++ (if decide (resid_of l = k) then [l] else []).
Proof.
  unfold with_resid. rewrite filter_app, filter_cons, filter_nil.
  by destruct (decide (resid_of l = k)).
Qed.

Lemma with_resid_nil k ms : k ∉ resid_of <$> ms → with_resid k ms = [].
Proof.
  intros Hk. induction ms as [|m ms IH]; [done|].
  rewrite fmap_cons, not_elem_of_cons in Hk. destruct Hk as [Hne Hk].
  unfold with_resid. rewrite filter_cons_False by done. by apply IH.
Qed.

Lemma bucket_append_group ms l :
  bucket_append (resid_of l) l (group_by_resid ms)
  = Ok (group_by_resid (ms ++ [l])).
Proof.
  unfold bucket_append, group_by_resid.
  rewrite fmap_app. change (resid_of <$> [l]) with [resid_of l].
  rewrite first_seen_snoc. cbv zeta.
  destruct (decide (resid_of l ∈ resid_of <$> ms)) as [Hin|Hin].
  - rewrite od_lookup_tabulate_Some by (by apply elem_of_first_seen).
    unfold od_getitem.
    rewrite od_lookup_tabulate_Some by (by apply elem_of_first_seen).
    simpl. f_equal. rewrite od_update_tabulate.
    apply list_fmap_ext. intros _ k _. rewrite with_resid_snoc.
    destruct (decide (k = resid_of l)) as [->|Hne].
    + by rewrite decide_True.
    + rewrite decide_False by done. by rewrite app_nil_r.
  - rewrite od_lookup_tabulate_None by (by rewrite elem_of_first_seen).
    unfold od_getitem. rewrite od_lookup_app.
    rewrite od_lookup_tabulate_None by (by rewrite elem_of_first_seen).
    simpl. rewrite decide_True by done. simpl. f_equal.
    unfold od_update. rewrite !fmap_app. simpl.
    rewrite decide_True by done. f_equal.
    + rewrite <-list_fmap_compose. apply list_fmap_ext.
      intros i k Hk. apply list_elem_of_lookup_2 in Hk.
      rewrite elem_of_first_seen in Hk.
      assert (k ≠ resid_of l) as Hne by (by intros ->).
      simpl. rewrite decide_False by done.
      rewrite with_resid_snoc, decide_False by done.
      by rewrite app_nil_r.
    + by rewrite with_resid_snoc, with_resid_nil, decide_True.
Qed.

Section loops.
Context (rs : gset string).

Lemma second_loop_cons line fhandle d held :
  second_loop rs (line :: fhandle) d held
  = if matching rs line
    then d' ← bucket_append (resid_of line) line d;
         second_loop rs fhandle d' held
    else second_loop rs fhandle d (held ++ [line]).
Proof.
  simpl. unfold matching.
  by destruct (startswith line records), (bool_decide (resname_of line ∈ rs)).
Qed.

Lemma second_loop_spec fhandle ms held :
  second_loop rs fhandle (group_by_resid ms) held
  = Ok (group_by_resid (ms ++ filter (matching rs) fhandle),
        held ++ filter (λ l, ¬ matching rs l) fhandle).
Proof.
  revert ms held. induction fhandle as [|line fh IH]; intros ms held.
  - by rewrite !filter_nil, !app_nil_r.
  - rewrite second_loop_cons, !filter_cons.
    destruct (matching rs line); simpl.
    + rewrite bucket_append_group. simpl. rewrite IH.
      by rewrite <-app_assoc.
    + rewrite IH. by rewrite <-app_assoc.
Qed.

Lemma first_loop_spec fhandle ref :
  orders_nodup ref →
  ∃ ys ref' bl rest,
    first_loop rs fhandle ref = Ok (ys, ref', bl, rest)
    ∧ orders_nodup ref'
    ∧ ∃ pre,
        fhandle = pre ++ phase2_lines bl rest
        ∧ ys = filter (λ l, ¬ foreign rs l) pre
        ∧ first_loop_end rs bl rest.
Proof.
  revert ref. induction fhandle as [|line fh IH]; intros ref Href.
  { exists [], ref, None, []. repeat split; [done|]. by exists []. }
  simpl. destruct (startswith line records) eqn:Hrec.
  - destruct (bool_decide (resname_of line ∈ rs)) eqn:Hsel.
    + set (ref1 := match ref !! resname_of line with
                   | Some _ => ref
                   | None => <[resname_of line:=[]]> ref
                   end).
      assert (∃ order, ref1 !! resname_of line = Some order
                       ∧ orders_nodup ref1) as (order & Hlook & Href1).
      { subst ref1. destruct (ref !! resname_of line) as [o|] eqn:E.
        - by exists o.
        - exists []. split; [by rewrite lookup_insert_eq|].
          apply map_Forall_insert_2; [constructor|done]. }
      unfold getitem. rewrite Hlook. simpl.
      destruct (mem (atom_name_of line) order) eqn:Hmem.
      * exists [], ref1, (Some line), fh. repeat split; [done|].
        exists []. repeat split. unfold first_loop_end, matching.
        by rewrite Hrec, Hsel.
      * destruct (IH (<[resname_of line:=order ++ [atom_name_of line]]> ref1))
          as (ys & ref' & bl & rest & Hrun & Href' & pre & -> & -> & Hbl).
        { apply map_Forall_insert_2; [|done].
          apply NoDup_app. split; [by apply (Href1 _ _ Hlook)|].
          split; [|apply NoDup_singleton].
          intros x Hx ->%list_elem_of_singleton.
          unfold mem in Hmem. by apply bool_decide_eq_false in Hmem. }
        rewrite Hrun. simpl.
        exists (line :: filter (λ l, ¬ foreign rs l) pre), ref', bl, rest.
        repeat split; [done|]. exists (line :: pre).
        repeat split; [|done]. rewrite filter_cons_True; [done|].
        unfold foreign. rewrite Hrec, Hsel. simpl. tauto.
    + destruct (IH ref Href)
        as (ys & ref' & bl & rest & Hrun & Href' & pre & -> & -> & Hbl).
      rewrite Hrun. exists (filter (λ l, ¬ foreign rs l) pre), ref', bl, rest.
      repeat split; [done|]. exists (line :: pre).
      repeat split; [|done]. rewrite filter_cons_False; [done|].
      unfold foreign. rewrite Hrec, Hsel. simpl. tauto.
  - destruct (IH ref Href)
      as (ys & ref' & bl & rest & Hrun & Href' & pre & -> & -> & Hbl).
    rewrite Hrun. simpl.
    exists (line :: filter (λ l, ¬ foreign rs l) pre), ref', bl, rest.
    repeat split; [done|]. exists (line :: pre).
    repeat split; [|done]. rewrite filter_cons_True; [done|].
    unfold foreign. rewrite Hrec. simpl. tauto.
Qed.

Lemma collect_spec fhandle ys ref bl rest :
  first_loop rs fhandle ∅ = Ok (ys, ref, bl, rest) →
  first_loop_end rs bl rest →
  collect rs fhandle
  = Ok (ys, ref,
        group_by_resid (filter (matching rs) (phase2_lines bl rest)),
        filter (λ l, ¬ matching rs l) (phase2_lines bl rest)).
Proof.
  intros Hrun Hbl. unfold collect. rewrite Hrun. simpl.
  destruct bl as [b|]; simpl.
  - unfold first_loop_end in Hbl. assert (b ≠ "") as Hne.
    { apply startswith_records_nonempty.
      unfold matching in Hbl. by destruct (startswith b records). }
    rewrite bool_decide_eq_false_2 by done. simpl.
    pose proof Hbl as Hb. unfold matching in Hb.
    destruct (startswith b records); [|done].
    destruct (bool_decide (resname_of b ∈ rs)); [|done].
    change (@nil (string * list string)) with (group_by_resid []).
    rewrite bucket_append_group. simpl.
    rewrite second_loop_spec. simpl.
    rewrite filter_cons_True by done.
    by rewrite filter_cons_False by tauto.
  - unfold first_loop_end in Hbl. subst rest. by rewrite !filter_nil.
Qed.

End loops.

(** ** Replay *)

Lemma sort_lines_grouped atom_order lines :
  sort_lines atom_order lines = grouped_by_atom atom_order lines.
Proof.
  unfold sort_lines, grouped_by_atom.
  change (atom_order ≫= λ a, with_atom a lines)
    with ([] ++ (atom_order ≫= λ a, with_atom a lines)).
  generalize (@nil string) as acc.
  induction atom_order as [|a order IH]; intros acc; simpl.
  - by rewrite app_nil_r.
  - rewrite IH. by rewrite <-app_assoc.
Qed.

Lemma emit_bucket_spec ref first tl :
  emit_bucket ref (first :: tl) = Ok (replay_bucket ref (first :: tl)).
Proof.
  unfold emit_bucket, replay_bucket, getitem. simpl.
  destruct (ref !! resname_of first); [|done].
  simpl. by rewrite sort_lines_grouped.
Qed.

Lemma replay_spec ref (d : odict) :
  Forall (λ kv, kv.2 ≠ []) d →
  replay ref d = Ok (d ≫= λ kv, replay_bucket ref kv.2).
Proof.
  induction 1 as [|[k [|first tl]] d Hne _ IH]; [done|done|].
  cbn [replay]. rewrite emit_bucket_spec, IH. done.
Qed.

Lemma group_buckets_nonempty ms : Forall (λ kv, kv.2 ≠ []) (group_by_resid ms).
Proof.
  apply Forall_fmap, Forall_forall. intros k Hk. simpl.
  rewrite elem_of_first_seen in Hk.
  apply list_elem_of_fmap in Hk as (m & -> & Hm).
  intros Hnil. assert (m ∈ with_resid (resid_of m) ms) as Hin.
  { unfold with_resid. by apply list_elem_of_filter. }
  rewrite Hnil in Hin. by apply elem_of_nil in Hin.
Qed.

(** ** The shape of the output *)

Lemma run_spec rs fhandle :
  ∃ ys ref bl rest pre,
    first_loop rs fhandle ∅ = Ok (ys, ref, bl, rest)
    ∧ orders_nodup ref
    ∧ first_loop_end rs bl rest
    ∧ fhandle = pre ++ phase2_lines bl rest
    ∧ ys = filter (λ l, ¬ foreign rs l) pre
    ∧ collect rs fhandle
      = Ok (ys, ref,
            group_by_resid (filter (matching rs) (phase2_lines bl rest)),
            filter (λ l, ¬ matching rs l) (phase2_lines bl rest))
    ∧ run rs fhandle
      = Ok (ys
            ++ (group_by_resid (filter (matching rs) (phase2_lines bl rest))
                ≫= λ kv, replay_bucket ref kv.2)
            ++ filter (λ l, ¬ matching rs l) (phase2_lines bl rest)).
Proof.
  destruct (first_loop_spec rs fhandle ∅)
    as (ys & ref & bl & rest & Hrun & Href & pre & Hfh & Hys & Hbl).
  { apply map_Forall_empty. }
  exists ys, ref, bl, rest, pre.
  pose proof (collect_spec rs _ _ _ _ _ Hrun Hbl) as Hcol.
  repeat split; try done.
  unfold run. rewrite Hcol. simpl.
  by rewrite replay_spec by apply group_buckets_nonempty.
Qed.

(** ** Grouping a list by a key *)

Section grouping.
Context (key : string → string).

Lemma filter_disjoint_perm (P Q : string → Prop)
    `{!∀ x, Decision (P x)} `{!∀ x, Decision (Q x)} (ms : list string) :
  (∀ x, P x → Q x → False) →
  filter P ms ++ filter Q ms ≡ₚ filter (λ x, P x ∨ Q x) ms.
Proof.
  intros Hdisj. induction ms as [|m ms IH]; [done|].
  rewrite !filter_cons.
  destruct (decide (P m)) as [HP|HP], (decide (Q m)) as [HQ|HQ].
  - destruct (Hdisj m HP HQ).
  - rewrite decide_True by tauto. simpl. by f_equiv.
  - rewrite decide_True by tauto. rewrite <-Permutation_middle. by f_equiv.
  - by rewrite decide_False by tauto.
Qed.

(** Grouping by the keys of a duplicate-free list keeps exactly the
    elements whose key is listed, each once. *)
Lemma bind_filter_perm keys ms :
  NoDup keys →
  (keys ≫= λ k, filter (λ l, key l = k) ms)
  ≡ₚ filter (λ l, key l ∈ keys) ms.
Proof.
  induction 1 as [|k keys Hk Hnd IH].
  - simpl. induction ms as [|m ms IHms]; [done|].
    rewrite filter_cons_False; [done|apply not_elem_of_nil].
  - rewrite bind_cons, IH.
    rewrite filter_disjoint_perm by (by intros x <-).
    by rewrite (list_filter_iff (λ l, key l ∈ k :: keys)
                  (λ x, key x = k ∨ key x ∈ keys))
      by (intros x; rewrite elem_of_cons; tauto).
Qed.

Lemma filter_key_ne k k' ms :
  k ≠ k' →
  filter (λ l, key l = k) (filter (λ l, key l = k') ms) = [].
Proof.
  intros Hne. rewrite list_filter_filter.
  induction ms as [|m ms IH]; [done|].
  rewrite filter_cons_False; [done|]. intros [? ?]. congruence.
Qed.

Lemma filter_key_bind_notin k keys ms :
  k ∉ keys →
  filter (λ l, key l = k) (keys ≫= λ k', filter (λ l, key l = k') ms) = [].
Proof.
  induction keys as [|k' keys IH]; intros Hk; [done|].
  apply not_elem_of_cons in Hk as [Hne Hk].
  rewrite bind_cons, filter_app, IH, app_nil_r by done.
  by apply filter_key_ne.
Qed.

(** Grouping is stable: the elements with a listed key keep their order. *)
Lemma filter_key_bind k keys ms :
  NoDup keys → k ∈ keys →
  filter (λ l, key l = k) (keys ≫= λ k', filter (λ l, key l = k') ms)
  = filter (λ l, key l = k) ms.
Proof.
  induction 1 as [|k' keys Hk' Hnd IH]; intros Hin.
  { by apply elem_of_nil in Hin. }
  rewrite bind_cons, filter_app.
  destruct (decide (k = k')) as [->|Hne].
  - rewrite filter_key_bind_notin, app_nil_r by done.
    apply list_filter_filter_r. tauto.
  - apply elem_of_cons in Hin as [?|Hin]; [done|].
    by rewrite IH, filter_key_ne by done.
Qed.
End grouping.

(** ** Conservation *)

Lemma bind_tabulate {B} (f : string → list string) (F : list string → list B)
    (keys : list string) :
  ((λ k, (k, f k)) <$> keys) ≫= (λ kv, F kv.2) = keys ≫= (λ k, F (f k)).
Proof.
  induction keys as [|k keys IH]; [done|].
  by rewrite fmap_cons, !bind_cons, IH.
Qed.

Lemma bind_submseteq_pointwise (f g : string → list string) keys :
  (∀ k, f k ⊆+ g k) → keys ≫= f ⊆+ keys ≫= g.
Proof.
  intros Hfg. induction keys as [|k keys IH]; [done|].
  rewrite !bind_cons. by apply submseteq_app.
Qed.

Lemma filter_all (P : string → Prop) `{!∀ x, Decision (P x)}
    (l : list string) :
  (∀ x, x ∈ l → P x) → filter P l = l.
Proof.
  induction l as [|x l IH]; intros HP; [done|].
  rewrite filter_cons_True by (apply HP; by left).
  f_equal. apply IH. intros y Hy. apply HP. by right.
Qed.

Lemma group_by_resid_perm ms :
  (first_seen (resid_of <$> ms) ≫= λ k, with_resid k ms) ≡ₚ ms.
Proof.
  unfold with_resid. rewrite bind_filter_perm by apply NoDup_first_seen.
  rewrite filter_all; [done|].
  intros x Hx. rewrite elem_of_first_seen. by apply list_elem_of_fmap_2.
Qed.

Lemma grouped_by_atom_submseteq order lines :
  NoDup order → grouped_by_atom order lines ⊆+ lines.
Proof.
  intros Hnd. unfold grouped_by_atom, with_atom.
  rewrite bind_filter_perm by done.
  apply sublist_submseteq, sublist_filter.
Qed.

Lemma replay_bucket_submseteq ref lines :
  orders_nodup ref → replay_bucket ref lines ⊆+ lines.
Proof.
  intros Href. destruct lines as [|first tl]; [done|]. simpl.
  destruct (ref !! resname_of first) as [order|] eqn:E; [|done].
  apply grouped_by_atom_submseteq. by apply (Href _ _ E).
Qed.

(** C10.  Whatever the input and the residue-name set, [run] returns
    normally and the lines it yields form a sub-multiset of the input
    lines: no line is yielded more often than it occurs in the input. *)
Theorem run_yields_submultiset rs fhandle :
  ∃ out, run rs fhandle = Ok out ∧ out ⊆+ fhandle.
Proof.
  destruct (run_spec rs fhandle)
    as (ys & ref & bl & rest & pre & _ & Href & _ & Hfh & Hys & _ & Hrun).
  eexists. split; [exact Hrun|].
  transitivity (pre ++ phase2_lines bl rest); [|by rewrite Hfh].
  apply submseteq_app.
  - rewrite Hys. apply sublist_submseteq, sublist_filter.
  - set (ph2 := phase2_lines bl rest).
    transitivity (filter (matching rs) ph2 ++ filter (λ l, ¬ matching rs l) ph2);
      [|by rewrite filter_app_complement].
    apply submseteq_skips_r.
    unfold group_by_resid. rewrite bind_tabulate.
    set (ms := filter (matching rs) ph2).
    transitivity (first_seen (resid_of <$> ms) ≫= λ k, with_resid k ms);
      [|by rewrite group_by_resid_perm].
    apply bind_submseteq_pointwise. intros k.
    by apply replay_bucket_submseteq.
Qed.

(** ** Lines that are lost *)

(** C1.  [run] does not conserve the input lines.  With ALA selected, a GLY
    record read by the first loop is not yielded, and a bucketed ALA line
    whose atom name (OXT) is not in the learned order [N] is not yielded. *)
Theorem run_loses_lines :
  run {[ "ALA" ]} [gly_n_2] = Ok []
  ∧ run {[ "ALA" ]} [ala_n_1; ala_n_3; ala_oxt_3] = Ok [ala_n_1; ala_n_3].
Proof. split; by vm_compute. Qed.

(** C2.  In the first loop a record line whose residue name is not selected
    takes no branch of the loop body: it is not yielded, and the loop goes
    on with the next line in the same state. *)
Theorem first_loop_skips_foreign_record rs line fhandle ref :
  startswith line records →
  resname_of line ∉ rs →
  first_loop rs (line :: fhandle) ref = first_loop rs fhandle ref.
Proof.
  intros Hrec Hsel. simpl.
  destruct (startswith line records); [|done].
  by rewrite bool_decide_eq_false_2.
Qed.

Lemma first_loop_skips_foreign_record_witness :
  first_loop {[ "ALA" ]} [gly_n_2; remark_2] ∅
  = Ok ([remark_2], ∅, None, []).
Proof.
  rewrite first_loop_skips_foreign_record.
  - reflexivity.
  - by vm_compute.
  - by vm_compute.
Defined.

(** C3.  When no line has a selected residue name, [run] yields the lines
    that are not records, in their order, and no record line: the output
    is the input only if the input has no record line. *)
Theorem run_without_selected_residue rs fhandle :
  (∀ line, line ∈ fhandle → resname_of line ∉ rs) →
  run rs fhandle = Ok (filter (λ line, ¬ startswith line records) fhandle).
Proof.
  intros Hno.
  destruct (run_spec rs fhandle)
    as (ys & ref & bl & rest & pre & _ & _ & Hbl & Hfh & Hys & _ & Hrun).
  destruct bl as [b|]; simpl in *.
  - exfalso. apply (Hno b).
    + rewrite Hfh, elem_of_app. right. by left.
    + unfold matching in Hbl.
      destruct (startswith b records); [|done].
      exact (bool_decide_unpack _ Hbl).
  - subst rest. rewrite app_nil_r in Hfh. subst pre.
    subst ys. rewrite Hrun. simpl. rewrite app_nil_r. f_equal.
    clear Hrun. induction fhandle as [|line fh IH]; [done|].
    assert (¬ foreign rs line ↔ ¬ startswith line records) as Hiff.
    { unfold foreign. rewrite bool_decide_eq_false_2 by (apply Hno; by left).
      by destruct (startswith line records). }
    rewrite !filter_cons.
    destruct (decide (¬ startswith line records)) as [Hr|Hr].
    + rewrite decide_True by tauto. f_equal. apply IH.
      intros l Hl. apply Hno. by right.
    + rewrite decide_False by tauto. apply IH.
      intros l Hl. apply Hno. by right.
Qed.

Lemma run_without_selected_residue_witness :
  run {[ "ALA" ]} [remark_2; gly_n_2; gly_ca_3] = Ok [remark_2].
Proof.
  rewrite run_without_selected_residue.
  - reflexivity.
  - intros line Hin. repeat (apply elem_of_cons in Hin as [->|Hin];
      [by vm_compute|]). by apply elem_of_nil in Hin.
Defined.

(** ** Buckets *)

Lemma elem_of_group_by_resid k lines ms :
  (k, lines) ∈ group_by_resid ms
  ↔ k ∈ resid_of <$> ms ∧ lines = with_resid k ms.
Proof.
  unfold group_by_resid. rewrite list_elem_of_fmap. split.
  - intros (k' & [= -> ->] & Hk). by rewrite elem_of_first_seen in Hk.
  - intros [Hk ->]. exists k. by rewrite elem_of_first_seen.
Qed.

Lemma same_bucket_group ms l1 l2 :
  l1 ∈ ms → l2 ∈ ms →
  same_bucket (group_by_resid ms) l1 l2 ↔ resid_of l1 = resid_of l2.
Proof.
  intros H1 H2. unfold same_bucket. split.
  - intros (k & lines & [_ ->]%elem_of_group_by_resid & Hl1 & Hl2).
    unfold with_resid in *.
    apply list_elem_of_filter in Hl1 as [-> _].
    by apply list_elem_of_filter in Hl2 as [-> _].
  - intros Heq. exists (resid_of l1), (with_resid (resid_of l1) ms).
    rewrite elem_of_group_by_resid. unfold with_resid.
    rewrite !list_elem_of_filter. repeat split; try done.
    by apply list_elem_of_fmap_2.
Qed.

Lemma first_loop_inv rs fhandle ys ref bl rest :
  first_loop rs fhandle ∅ = Ok (ys, ref, bl, rest) →
  orders_nodup ref
  ∧ first_loop_end rs bl rest
  ∧ collect rs fhandle
    = Ok (ys, ref,
          group_by_resid (filter (matching rs) (phase2_lines bl rest)),
          filter (λ l, ¬ matching rs l) (phase2_lines bl rest))
  ∧ run rs fhandle
    = Ok (ys
          ++ (group_by_resid (filter (matching rs) (phase2_lines bl rest))
              ≫= λ kv, replay_bucket ref kv.2)
          ++ filter (λ l, ¬ matching rs l) (phase2_lines bl rest)).
Proof.
  intros Hrun.
  destruct (run_spec rs fhandle)
    as (ys' & ref' & bl' & rest' & pre & Hrun' & Href & Hbl & _ & _ & Hc & Hr).
  rewrite Hrun in Hrun'. by injection Hrun' as <- <- <- <-.
Qed.

Lemma collect_inv rs fhandle ys ref residue_lines held :
  collect rs fhandle = Ok (ys, ref, residue_lines, held) →
  orders_nodup ref
  ∧ Forall (λ kv, kv.2 ≠ []) residue_lines
  ∧ run rs fhandle
    = Ok (ys ++ (residue_lines ≫= λ kv, replay_bucket ref kv.2) ++ held).
Proof.
  intros Hcol.
  destruct (run_spec rs fhandle)
    as (ys' & ref' & bl & rest & pre & _ & Href & _ & _ & _ & Hc & Hr).
  rewrite Hcol in Hc. injection Hc as -> -> -> ->.
  split; [done|]. split; [apply group_buckets_nonempty|done].
Qed.

Lemma bucket_in_run rs fhandle ys ref residue_lines held k lines :
  collect rs fhandle = Ok (ys, ref, residue_lines, held) →
  (k, lines) ∈ residue_lines →
  ∃ before after,
    run rs fhandle = Ok (before ++ replay_bucket ref lines ++ after).
Proof.
  intros (_ & _ & Hrun)%collect_inv (d1 & d2 & ->)%list_elem_of_split.
  rewrite bind_app, bind_cons in Hrun. simpl in Hrun.
  exists (ys ++ (d1 ≫= λ kv, replay_bucket ref kv.2)),
         ((d2 ≫= λ kv, replay_bucket ref kv.2) ++ held).
  rewrite Hrun. f_equal. by rewrite <-!app_assoc.
Qed.

Lemma replay_Forall2 ref (d : odict) :
  Forall (λ kv, kv.2 ≠ []) d →
  ∃ outs, Forall2 (λ kv out, emit_bucket ref kv.2 = Ok out) d outs
          ∧ (d ≫= λ kv, replay_bucket ref kv.2) = mjoin outs.
Proof.
  induction 1 as [|[k [|first tl]] d Hne _ (outs & Hall & Heq)].
  - by exists [].
  - done.
  - exists (replay_bucket ref (first :: tl) :: outs). split.
    + constructor; [apply emit_bucket_spec|done].
    + by rewrite bind_cons, Heq.
Qed.

Lemma replay_Forall2_fmap ref (d : odict) :
  Forall (λ kv, kv.2 ≠ []) d →
  Forall2 (λ kv out, emit_bucket ref kv.2 = Ok out) d
    ((λ kv, replay_bucket ref kv.2) <$> d)
  ∧ (d ≫= λ kv, replay_bucket ref kv.2)
    = mjoin ((λ kv, replay_bucket ref kv.2) <$> d).
Proof.
  induction 1 as [|[k [|first tl]] d Hne _ [Hall Heq]].
  - split; [constructor|done].
  - done.
  - split.
    + rewrite fmap_cons. constructor; [apply emit_bucket_spec|done].
    + by rewrite bind_cons, fmap_cons, Heq.
Qed.

(** ** The bucket key *)

(** C4, as stated, fails: [ala_n_left] and [ala_ca_right] carry the raw
    fields ["7   "] and ["   7"], and land in one bucket. *)
Lemma bucket_key_is_not_raw_field :
  ¬ (∀ rs fhandle ys ref b rest residue_lines held l1 l2,
       first_loop rs fhandle ∅ = Ok (ys, ref, Some b, rest) →
       collect rs fhandle = Ok (ys, ref, residue_lines, held) →
       l1 ∈ b :: rest → l2 ∈ b :: rest →
       matching rs l1 → matching rs l2 →
       same_bucket residue_lines l1 l2 ↔ slice 22 26 l1 = slice 22 26 l2).
Proof.
  intros Hclaim.
  assert (slice 22 26 ala_n_left = slice 22 26 ala_ca_right) as Heq;
    [|by vm_compute in Heq].
  apply (Hclaim {[ "ALA" ]} [ala_n_1; ala_n_left; ala_ca_right]
           [ala_n_1] {[ "ALA" := ["N"] ]} ala_n_left [ala_ca_right]
           [("7", [ala_n_left; ala_ca_right])] []).
  - by vm_compute.
  - by vm_compute.
  - by left.
  - right. by left.
  - by vm_compute.
  - by vm_compute.
  - exists "7", [ala_n_left; ala_ca_right].
    split; [by left|]. split; [by left|right; by left].
Qed.

(** C4, amended.  The buckets of the second phase are keyed by the
    sequence-id field [22,26) with surrounding whitespace stripped, as a
    string: two record lines of selected residues read after the first loop
    lie in one bucket exactly when their stripped fields are equal. *)
Theorem bucket_key_is_stripped_resid
    rs fhandle ys ref b rest (l1 l2 : string) :
  first_loop rs fhandle ∅ = Ok (ys, ref, Some b, rest) →
  l1 ∈ b :: rest → l2 ∈ b :: rest →
  matching rs l1 → matching rs l2 →
  ∃ residue_lines held,
    collect rs fhandle = Ok (ys, ref, residue_lines, held)
    ∧ (same_bucket residue_lines l1 l2 ↔ resid_of l1 = resid_of l2).
Proof.
  intros (_ & _ & Hcol & _)%first_loop_inv Hl1 Hl2 Hm1 Hm2.
  eexists _, _. split; [exact Hcol|]. simpl.
  apply same_bucket_group; by apply list_elem_of_filter.
Qed.

Lemma bucket_key_is_stripped_resid_witness :
  ∃ residue_lines held,
    collect {[ "ALA" ]} [ala_n_1; ala_n_left; ala_ca_right]
    = Ok ([ala_n_1], {[ "ALA" := ["N"] ]}, residue_lines, held)
    ∧ (same_bucket residue_lines ala_n_left ala_ca_right
       ↔ resid_of ala_n_left = resid_of ala_ca_right).
Proof.
  apply (bucket_key_is_stripped_resid _ _ _ _ ala_n_left [ala_ca_right]).
  - by vm_compute.
  - by left.
  - right. by left.
  - by vm_compute.
  - by vm_compute.
Defined.

(** ** Replay of one bucket *)

(** C5.  When the residue name [R] of a bucket's first line has a learned
    order, the bucket is yielded as one group of lines per atom name of that
    order, in that order; each group holds the bucket's lines with that atom
    name in their original relative order. *)
Theorem learned_order_applied
    rs fhandle ys ref residue_lines held k lines first R order :
  collect rs fhandle = Ok (ys, ref, residue_lines, held) →
  (k, lines) ∈ residue_lines →
  head lines = Some first →
  resname_of first = R →
  ref !! R = Some order →
  emit_bucket ref lines = Ok (order ≫= λ a, with_atom a lines)
  ∧ (∀ a, a ∈ order →
       with_atom a (order ≫= λ a, with_atom a lines) = with_atom a lines)
  ∧ ∃ before after,
      run rs fhandle
      = Ok (before ++ (order ≫= λ a, with_atom a lines) ++ after).
Proof.
  intros Hcol Hin Hhead <- Hlook.
  destruct lines as [|first' tl]; [done|]. injection Hhead as ->.
  assert (replay_bucket ref (first :: tl)
          = order ≫= λ a, with_atom a (first :: tl)) as Hrb.
  { simpl. by rewrite Hlook. }
  split; [by rewrite emit_bucket_spec, Hrb|]. split.
  - intros a Ha. apply (filter_key_bind atom_name_of); [|done].
    apply collect_inv in Hcol as (Href & _). by apply (Href _ _ Hlook).
  - rewrite <-Hrb. by eapply bucket_in_run.
Qed.

Lemma learned_order_applied_witness :
  emit_bucket {[ "ALA" := ["N"; "CA"] ]} [ala_ca_3; ala_n_3]
  = Ok (["N"; "CA"] ≫= λ a, with_atom a [ala_ca_3; ala_n_3])
  ∧ (∀ a, a ∈ ["N"; "CA"] →
       with_atom a (["N"; "CA"] ≫= λ a, with_atom a [ala_ca_3; ala_n_3])
       = with_atom a [ala_ca_3; ala_n_3])
  ∧ ∃ before after,
      run {[ "ALA" ]} [ala_n_1; ala_ca_1; remark_2; ala_ca_3; ala_n_3]
      = Ok (before
            ++ (["N"; "CA"] ≫= λ a, with_atom a [ala_ca_3; ala_n_3])
            ++ after).
Proof.
  apply (learned_order_applied {[ "ALA" ]}
           [ala_n_1; ala_ca_1; remark_2; ala_ca_3; ala_n_3]
           [ala_n_1; ala_ca_1; remark_2] _
           [("3", [ala_ca_3; ala_n_3])] [] "3" _ ala_ca_3 "ALA").
  - by vm_compute.
  - by left.
  - reflexivity.
  - by vm_compute.
  - by vm_compute.
Defined.

(** C7.  A bucket whose first line has a residue name without a learned
    order is yielded as it is: the same lines, in their original order. *)
Theorem unlearned_bucket_unchanged
    rs fhandle ys ref residue_lines held k lines first :
  collect rs fhandle = Ok (ys, ref, residue_lines, held) →
  (k, lines) ∈ residue_lines →
  head lines = Some first →
  ref !! resname_of first = None →
  emit_bucket ref lines = Ok lines
  ∧ ∃ before after, run rs fhandle = Ok (before ++ lines ++ after).
Proof.
  intros Hcol Hin Hhead Hlook.
  destruct lines as [|first' tl]; [done|]. injection Hhead as ->.
  assert (replay_bucket ref (first :: tl) = first :: tl) as Hrb.
  { simpl. by rewrite Hlook. }
  split; [by rewrite emit_bucket_spec, Hrb|].
  destruct (bucket_in_run _ _ _ _ _ _ _ _ Hcol Hin) as (before & after & Hrun).
  rewrite Hrb in Hrun. by exists before, after.
Qed.

Lemma unlearned_bucket_unchanged_witness :
  emit_bucket {[ "ALA" := ["N"] ]} [gly_ca_3; gly_n_3]
  = Ok [gly_ca_3; gly_n_3]
  ∧ ∃ before after,
      run {[ "ALA"; "GLY" ]} [ala_n_1; ala_n_left; gly_ca_3; gly_n_3]
      = Ok (before ++ [gly_ca_3; gly_n_3] ++ after).
Proof.
  apply (unlearned_bucket_unchanged {[ "ALA"; "GLY" ]}
           [ala_n_1; ala_n_left; gly_ca_3; gly_n_3]
           [ala_n_1] _
           [("7", [ala_n_left]); ("3", [gly_ca_3; gly_n_3])]
           [] "3" _ gly_ca_3).
  - by vm_compute.
  - right. by left.
  - reflexivity.
  - by vm_compute.
Defined.

(** ** The end of the output *)

(** C6.  After the input is exhausted, [run] yields the buckets in the order
    in which their keys first occur among the bucketed lines, and after the
    last bucket the held lines (the lines of the second phase that are not
    records of a selected residue) in their original order; these end the
    output.  A bucket holds the bucketed lines with its key, and what it
    yields is [replay_bucket] of it: its groups by learned atom name, or the
    bucket itself. *)
Theorem buckets_then_held rs fhandle ys ref bl rest :
  first_loop rs fhandle ∅ = Ok (ys, ref, bl, rest) →
  ∃ residue_lines held outs,
    collect rs fhandle = Ok (ys, ref, residue_lines, held)
    ∧ residue_lines.*1
      = first_seen (resid_of <$> filter (matching rs) (phase2_lines bl rest))
    ∧ (∀ k lines, (k, lines) ∈ residue_lines →
         lines = with_resid k (filter (matching rs) (phase2_lines bl rest)))
    ∧ Forall2 (λ kv out, emit_bucket ref kv.2 = Ok out) residue_lines outs
    ∧ outs = (λ kv, replay_bucket ref kv.2) <$> residue_lines
    ∧ held = filter (λ l, ¬ matching rs l) (phase2_lines bl rest)
    ∧ run rs fhandle = Ok (ys ++ mjoin outs ++ held).
Proof.
  intros (_ & _ & Hcol & Hrun)%first_loop_inv.
  set (ms := filter (matching rs) (phase2_lines bl rest)) in *.
  destruct (replay_Forall2_fmap ref (group_by_resid ms)) as [Hall Heq].
  { apply group_buckets_nonempty. }
  exists (group_by_resid ms), (filter (λ l, ¬ matching rs l)
                                 (phase2_lines bl rest)),
         ((λ kv, replay_bucket ref kv.2) <$> group_by_resid ms).
  split; [done|]. split.
  { unfold group_by_resid. rewrite <-list_fmap_compose. apply list_fmap_id. }
  split. { by intros k lines [_ ->]%elem_of_group_by_resid. }
  split; [done|]. split; [done|]. split; [done|]. by rewrite <-Heq.
Qed.

Lemma buckets_then_held_witness :
  ∃ residue_lines held outs,
    collect {[ "ALA" ]}
      [ala_n_1; ala_ca_1; ala_ca_3; remark_2; ala_n_left; gly_n_2; ala_n_3]
    = Ok ([ala_n_1; ala_ca_1], {[ "ALA" := ["N"; "CA"] ]},
          residue_lines, held)
    ∧ residue_lines.*1
      = first_seen (resid_of <$> filter (matching {[ "ALA" ]})
          (phase2_lines (Some ala_ca_3)
             [remark_2; ala_n_left; gly_n_2; ala_n_3]))
    ∧ (∀ k lines, (k, lines) ∈ residue_lines →
         lines = with_resid k (filter (matching {[ "ALA" ]})
                   (phase2_lines (Some ala_ca_3)
                      [remark_2; ala_n_left; gly_n_2; ala_n_3])))
    ∧ Forall2
        (λ kv out, emit_bucket {[ "ALA" := ["N"; "CA"] ]} kv.2 = Ok out)
        residue_lines outs
    ∧ outs = (λ kv, replay_bucket {[ "ALA" := ["N"; "CA"] ]} kv.2)
               <$> residue_lines
    ∧ held = filter (λ l, ¬ matching {[ "ALA" ]} l)
               (phase2_lines (Some ala_ca_3)
                  [remark_2; ala_n_left; gly_n_2; ala_n_3])
    ∧ run {[ "ALA" ]}
        [ala_n_1; ala_ca_1; ala_ca_3; remark_2; ala_n_left; gly_n_2; ala_n_3]
      = Ok ([ala_n_1; ala_ca_1] ++ mjoin outs ++ held).
Proof.
  apply buckets_then_held. by vm_compute.
Defined.

(** C8.  Two record lines of selected residues read in the second phase
    that have different residue names and the same key lie in one bucket,
    and in no other.  That bucket holds a line whose residue name is not
    that of its first line, and still what [run] yields for it is decided by
    the residue name of its first line alone: the groups by the atom names
    learned for that name, or the bucket itself when none was learned. *)
Theorem shared_resid_one_bucket rs fhandle ys ref b rest (l1 l2 : string) :
  first_loop rs fhandle ∅ = Ok (ys, ref, Some b, rest) →
  l1 ∈ b :: rest → l2 ∈ b :: rest →
  matching rs l1 → matching rs l2 →
  resname_of l1 ≠ resname_of l2 →
  resid_of l1 = resid_of l2 →
  ∃ residue_lines held k first tl before after,
    collect rs fhandle = Ok (ys, ref, residue_lines, held)
    ∧ (k, first :: tl) ∈ residue_lines
    ∧ l1 ∈ first :: tl ∧ l2 ∈ first :: tl
    ∧ (resname_of l1 ≠ resname_of first ∨ resname_of l2 ≠ resname_of first)
    ∧ (∀ k' lines', (k', lines') ∈ residue_lines →
         l1 ∈ lines' ∨ l2 ∈ lines' → (k', lines') = (k, first :: tl))
    ∧ emit_bucket ref (first :: tl)
      = Ok match ref !! resname_of first with
           | Some order => order ≫= λ a, with_atom a (first :: tl)
           | None => first :: tl
           end
    ∧ run rs fhandle
      = Ok (before
            ++ match ref !! resname_of first with
               | Some order => order ≫= λ a, with_atom a (first :: tl)
               | None => first :: tl
               end
            ++ after).
Proof.
  intros (_ & _ & Hcol & _)%first_loop_inv Hl1 Hl2 Hm1 Hm2 Hnames Hid.
  simpl in Hcol. set (ms := filter (matching rs) (b :: rest)) in *.
  assert (l1 ∈ ms ∧ l2 ∈ ms) as [Hin1 Hin2].
  { split; by apply list_elem_of_filter. }
  assert (l1 ∈ with_resid (resid_of l1) ms) as Hb1.
  { by apply list_elem_of_filter. }
  assert (l2 ∈ with_resid (resid_of l1) ms) as Hb2.
  { by apply list_elem_of_filter. }
  destruct (with_resid (resid_of l1) ms) as [|first tl] eqn:Hbucket.
  { by apply elem_of_nil in Hb1. }
  assert ((resid_of l1, first :: tl) ∈ group_by_resid ms) as Hin.
  { rewrite elem_of_group_by_resid. split; [|done].
    by apply list_elem_of_fmap_2. }
  destruct (bucket_in_run _ _ _ _ _ _ _ _ Hcol Hin)
    as (before & after & Hrun).
  exists (group_by_resid ms), (filter (λ l, ¬ matching rs l) (b :: rest)),
         (resid_of l1), first, tl, before, after.
  split; [done|]. split; [done|]. split; [done|]. split; [done|].
  split.
  { destruct (decide (resname_of l1 = resname_of first)) as [Heq|];
      [|by left]. right. by rewrite <-Heq. }
  split.
  - intros k' lines' [_ ->]%elem_of_group_by_resid Hor.
    assert (k' = resid_of l1) as ->; [|by rewrite Hbucket].
    destruct Hor as [Hor|Hor]; apply list_elem_of_filter in Hor as [<- _];
      done.
  - split; [by rewrite emit_bucket_spec|]. exact Hrun.
Qed.

Lemma shared_resid_one_bucket_witness :
  ∃ residue_lines held k first tl before after,
    collect {[ "ALA"; "GLY" ]} [ala_n_1; ala_n_3; gly_ca_3]
    = Ok ([ala_n_1], {[ "ALA" := ["N"] ]}, residue_lines, held)
    ∧ (k, first :: tl) ∈ residue_lines
    ∧ ala_n_3 ∈ first :: tl ∧ gly_ca_3 ∈ first :: tl
    ∧ (resname_of ala_n_3 ≠ resname_of first
       ∨ resname_of gly_ca_3 ≠ resname_of first)
    ∧ (∀ k' lines', (k', lines') ∈ residue_lines →
         ala_n_3 ∈ lines' ∨ gly_ca_3 ∈ lines' →
         (k', lines') = (k, first :: tl))
    ∧ emit_bucket {[ "ALA" := ["N"] ]} (first :: tl)
      = Ok match ({[ "ALA" := ["N"] ]} : gmap string (list string))
                 !! resname_of first with
           | Some order => order ≫= λ a, with_atom a (first :: tl)
           | None => first :: tl
           end
    ∧ run {[ "ALA"; "GLY" ]} [ala_n_1; ala_n_3; gly_ca_3]
      = Ok (before
            ++ match ({[ "ALA" := ["N"] ]} : gmap string (list string))
                       !! resname_of first with
               | Some order => order ≫= λ a, with_atom a (first :: tl)
               | None => first :: tl
               end
            ++ after).
Proof.
  apply (shared_resid_one_bucket _ _ _ _ ala_n_3 [gly_ca_3]).
  - by vm_compute.
  - by left.
  - right. by left.
  - by vm_compute.
  - by vm_compute.
  - by vm_compute.
  - by vm_compute.
Defined.

(** ** Totality *)

(** C9.  [run] raises on no input: it returns the list of yielded lines
    for every line sequence and every residue-name set.  On a line too
    short to reach a field the slice is the empty string, and the empty
    string is a token like any other: when it is selected, a short record
    line is learned, and its repetition is bucketed and replayed. *)
Theorem run_total :
  (∀ rs fhandle, ∃ out, run rs fhandle = Ok out)
  ∧ (∀ (lo hi : nat) line,
       (String.length line ≤ lo)%nat → strip (slice lo hi line) = "")
  ∧ (∀ (rs : gset string) line,
       (String.length line ≤ 12)%nat → startswith line records → "" ∈ rs →
       run rs [line; line] = Ok [line; line]).
Proof.
  split; [|split].
  - intros rs fhandle.
    destruct (run_spec rs fhandle)
      as (ys & ref & bl & rest & pre & _ & _ & _ & _ & _ & _ & Hrun).
    eexists. exact Hrun.
  - intros lo hi line Hlen. by rewrite slice_short.
  - intros rs line Hlen Hrec Hsel.
    assert (atom_name_of line = "" ∧ resname_of line = ""
            ∧ resid_of line = "") as (Ha & Hn & Hi).
    { unfold atom_name_of, resname_of, resid_of.
      by rewrite !slice_short by lia. }
    assert (line ≠ "") as Hne by by apply startswith_records_nonempty.
    apply Is_true_true in Hrec.
    unfold run, collect. cbn [first_loop].
    rewrite Hrec, Hn, Ha, bool_decide_eq_true_2 by done.
    unfold getitem, mem. rewrite lookup_empty.
    cbv zeta. rewrite lookup_insert_eq.
    cbn -[resname_of atom_name_of resid_of startswith].
    rewrite (bool_decide_eq_false_2 ("" ∈ [])) by apply not_elem_of_nil.
    rewrite !lookup_insert_eq.
    cbn -[resname_of atom_name_of resid_of startswith].
    rewrite bool_decide_eq_true_2 by (by left).
    cbn -[resname_of atom_name_of resid_of startswith].
    rewrite (bool_decide_eq_false_2 (line = "")) by done.
    rewrite Hrec, Hn, Hi, bool_decide_eq_true_2 by done.
    cbn -[resname_of atom_name_of resid_of startswith].
    change (bucket_append "" line []) with (Ok [("", [line])]).
    cbn -[resname_of atom_name_of resid_of startswith emit_bucket].
    unfold emit_bucket, getitem.
    cbn -[resname_of atom_name_of resid_of startswith].
    rewrite Hn, lookup_insert_eq.
    cbn -[resname_of atom_name_of resid_of startswith].
    by rewrite decide_True by done.
Qed.

Lemma run_total_witness :
  run {[ "" ]} ["TER"; "TER"] = Ok ["TER"; "TER"].
Proof.
  apply (proj2 (proj2 run_total)).
  - simpl. lia.
  - by vm_compute.
  - by apply elem_of_singleton.
Defined.

(** * Further properties of [run] *)

(** ** Where the first loop stops and what it has learned *)

Lemma filter_matching_snoc rs pre line :
  filter (matching rs) (pre ++ [line])
  = filter (matching rs) pre ++ (if matching rs line then [line] else []).
Proof.
  rewrite filter_app, filter_cons, filter_nil.
  by destruct (matching rs line).
Qed.

Lemma atoms_seen_snoc rs r pre line :
  atoms_seen rs r (pre ++ [line])
  = atoms_seen rs r pre
    ++ (if matching rs line
        then if decide (resname_of line = r) then [atom_name_of line] else []
        else []).
Proof.
  unfold atoms_seen. rewrite filter_matching_snoc, filter_app, fmap_app.
  f_equal. destruct (matching rs line); [|done].
  rewrite filter_cons, filter_nil.
  by destruct (decide (resname_of line = r)).
Qed.

Lemma atom_key_seen rs r a pre :
  (r, a) ∈ atom_key <$> filter (matching rs) pre ↔ a ∈ atoms_seen rs r pre.
Proof.
  unfold atoms_seen. rewrite !list_elem_of_fmap. split.
  - intros (l & [= -> ->] & Hl). exists l. split; [done|].
    by apply list_elem_of_filter.
  - intros (l & -> & [<- Hl]%list_elem_of_filter). by exists l.
Qed.

Lemma first_loop_learns rs fhandle pre0 ref0 :
  learned_from rs pre0 ref0 →
  NoDup (atom_key <$> filter (matching rs) pre0) →
  ∃ ys ref bl rest pre,
    first_loop rs fhandle ref0 = Ok (ys, ref, bl, rest)
    ∧ fhandle = pre ++ phase2_lines bl rest
    ∧ ys = filter (λ l, ¬ foreign rs l) pre
    ∧ learned_from rs (pre0 ++ pre) ref
    ∧ NoDup (atom_key <$> filter (matching rs) (pre0 ++ pre))
    ∧ match bl with
      | Some b =>
          matching rs b
          ∧ atom_key b ∈ atom_key <$> filter (matching rs) (pre0 ++ pre)
      | None => rest = []
      end.
Proof.
  revert pre0 ref0.
  induction fhandle as [|line fh IH]; intros pre0 ref0 Href Hnd.
  { exists [], ref0, None, [], []. rewrite !app_nil_r. by split_and!. }
  destruct (matching rs line) eqn:Hm.
  - (* a record line of a selected residue *)
    assert (startswith line records = true
            ∧ bool_decide (resname_of line ∈ rs) = true) as [Hrec Hsel].
    { unfold matching in Hm. by apply andb_true_iff in Hm. }
    set (r := resname_of line). set (a := atom_name_of line).
    set (order := atoms_seen rs r pre0).
    set (ref1 := match ref0 !! r with
                 | Some _ => ref0
                 | None => <[r:=[]]> ref0
                 end).
    assert (ref1 !! r = Some order) as Hlook.
    { subst ref1. pose proof (Href r) as Hr. fold order in Hr.
      destruct order as [|x o]; rewrite Hr; [by rewrite lookup_insert_eq|done]. }
    cbn [first_loop]. rewrite Hrec, Hsel. cbv zeta.
    fold r a. fold ref1. unfold getitem. rewrite Hlook.
    cbn [mbind result_bind]. unfold mem.
    destruct (decide (a ∈ order)) as [Hin|Hnin].
    + rewrite bool_decide_eq_true_2 by done.
      assert (ref1 = ref0) as ->.
      { subst ref1. pose proof (Href r) as Hr. fold order in Hr.
        destruct order as [|x o]; [by apply elem_of_nil in Hin|].
        by rewrite Hr. }
      exists [], ref0, (Some line), fh, []. rewrite !app_nil_r.
      split_and!; try done; [by rewrite Hm|by apply atom_key_seen].
    + rewrite bool_decide_eq_false_2 by done.
      destruct (IH (pre0 ++ [line]) (<[r:=order ++ [a]]> ref1))
        as (ys & ref & bl & rest & pre & Hrun & -> & -> & Hl & Hn & Hbl).
      * intros r'. rewrite atoms_seen_snoc, Hm. fold r a.
        destruct (decide (r = r')) as [<-|Hne].
        -- rewrite lookup_insert_eq. fold order.
           by destruct order.
        -- rewrite lookup_insert_ne, app_nil_r by done.
           rewrite <-(Href r'). subst ref1.
           destruct (ref0 !! r); [done|]. by rewrite lookup_insert_ne.
      * rewrite filter_matching_snoc, Hm, fmap_app. apply NoDup_app.
        split; [done|]. split; [|apply NoDup_singleton].
        intros x Hx ->%list_elem_of_singleton.
        by apply atom_key_seen in Hx.
      * rewrite Hrun. cbn [mbind result_bind].
        rewrite <-app_assoc in Hl, Hn, Hbl.
        exists (line :: filter (λ l, ¬ foreign rs l) pre), ref, bl, rest,
               (line :: pre).
        split_and!; try done.
        rewrite filter_cons_True; [done|].
        unfold foreign. rewrite Hrec, Hsel. simpl. tauto.
  - (* any other line *)
    destruct (IH (pre0 ++ [line]) ref0)
      as (ys & ref & bl & rest & pre & Hrun & -> & -> & Hl & Hn & Hbl).
    + intros r'. rewrite atoms_seen_snoc, Hm, app_nil_r. apply Href.
    + by rewrite filter_matching_snoc, Hm, app_nil_r.
    + rewrite <-app_assoc in Hl, Hn, Hbl.
      unfold matching in Hm. cbn [first_loop].
      destruct (startswith line records) eqn:Hrec.
      * simpl in Hm. rewrite Hm, Hrun.
        exists (filter (λ l, ¬ foreign rs l) pre), ref, bl, rest, (line :: pre).
        split_and!; try done.
        rewrite filter_cons_False; [done|].
        unfold foreign. rewrite Hrec, Hm. simpl. tauto.
      * rewrite Hrun. cbn [mbind result_bind].
        exists (line :: filter (λ l, ¬ foreign rs l) pre), ref, bl, rest,
               (line :: pre).
        split_and!; try done.
        rewrite filter_cons_True; [done|].
        unfold foreign. rewrite Hrec. simpl. tauto.
Qed.

Lemma first_loop_facts rs fhandle ys ref bl rest :
  first_loop rs fhandle ∅ = Ok (ys, ref, bl, rest) →
  ∃ pre,
    fhandle = pre ++ phase2_lines bl rest
    ∧ ys = filter (λ l, ¬ foreign rs l) pre
    ∧ learned_from rs pre ref
    ∧ NoDup (atom_key <$> filter (matching rs) pre)
    ∧ match bl with
      | Some b =>
          matching rs b ∧ atom_key b ∈ atom_key <$> filter (matching rs) pre
      | None => rest = []
      end.
Proof.
  intros Hrun.
  destruct (first_loop_learns rs fhandle [] ∅)
    as (ys' & ref' & bl' & rest' & pre & Hrun' & H).
  - intros r. by rewrite lookup_empty.
  - constructor.
  - rewrite Hrun in Hrun'. injection Hrun' as <- <- <- <-.
    by exists pre.
Qed.

(** X1.  The first loop stops at the first record line of a selected
    residue whose residue name and atom name both occurred on an earlier
    such line; up to there no such pair occurs twice. *)
Theorem first_loop_stops_at_first_repeat rs fhandle ys ref b rest :
  first_loop rs fhandle ∅ = Ok (ys, ref, Some b, rest) →
  ∃ pre,
    fhandle = pre ++ b :: rest
    ∧ NoDup (atom_key <$> filter (matching rs) pre)
    ∧ matching rs b
    ∧ atom_key b ∈ atom_key <$> filter (matching rs) pre.
Proof.
  intros (pre & Hfh & _ & _ & Hnd & Hm & Hin)%first_loop_facts.
  by exists pre.
Qed.

Lemma first_loop_stops_at_first_repeat_witness :
  ∃ pre,
    [ala_n_1; remark_2; ala_ca_1; gly_n_2; ala_ca_3; ala_n_3]
    = pre ++ ala_ca_3 :: [ala_n_3]
    ∧ NoDup (atom_key <$> filter (matching {[ "ALA" ]}) pre)
    ∧ matching {[ "ALA" ]} ala_ca_3
    ∧ atom_key ala_ca_3 ∈ atom_key <$> filter (matching {[ "ALA" ]}) pre.
Proof.
  apply (first_loop_stops_at_first_repeat _ _
           [ala_n_1; remark_2; ala_ca_1] {[ "ALA" := ["N"; "CA"] ]}).
  by vm_compute.
Defined.

(** X2.  When the first loop ends, [ref_atom_order] maps a residue name to
    the atom names of the record lines of that (selected) residue name that
    the loop consumed before it stopped, in input order, and has no entry
    for a residue name without such a line. *)
Theorem learned_order_is_atoms_seen rs fhandle ys ref bl rest :
  first_loop rs fhandle ∅ = Ok (ys, ref, bl, rest) →
  ∃ pre,
    fhandle = pre ++ phase2_lines bl rest
    ∧ ∀ r, ref !! r = match atoms_seen rs r pre with
                      | [] => None
                      | order => Some order
                      end.
Proof.
  intros (pre & Hfh & _ & Href & _)%first_loop_facts. by exists pre.
Qed.

Lemma learned_order_is_atoms_seen_witness :
  ∃ pre,
    [ala_n_1; remark_2; ala_ca_1; gly_n_2; ala_ca_3; ala_n_3]
    = pre ++ phase2_lines (Some ala_ca_3) [ala_n_3]
    ∧ ∀ r, ({[ "ALA" := ["N"; "CA"] ]} : gmap string (list string)) !! r
           = match atoms_seen {[ "ALA" ]} r pre with
             | [] => None
             | order => Some order
             end.
Proof.
  apply (learned_order_is_atoms_seen _ _ [ala_n_1; remark_2; ala_ca_1]).
  by vm_compute.
Defined.

(** X3.  When no residue-name and atom-name pair occurs on two record lines
    of selected residues, the first loop consumes the whole input: [run]
    yields the input in order, without the record lines of the residues
    that are not selected, and reorders nothing. *)
Theorem run_without_repeat rs fhandle :
  NoDup (atom_key <$> filter (matching rs) fhandle) →
  run rs fhandle = Ok (filter (λ l, ¬ foreign rs l) fhandle).
Proof.
  intros Hnd.
  destruct (run_spec rs fhandle)
    as (ys & ref & bl & rest & pre' & Hloop & _ & _ & _ & _ & _ & Hrun).
  destruct (first_loop_facts _ _ _ _ _ _ Hloop)
    as (pre & Hfh & Hys & _ & _ & Hbl).
  destruct bl as [b|]; simpl in *.
  - exfalso. destruct Hbl as [Hm Hin]. rewrite Hfh in Hnd.
    rewrite filter_app, filter_cons_True, fmap_app, fmap_cons in Hnd by done.
    apply NoDup_app in Hnd as (_ & Hdisj & _).
    apply (Hdisj _ Hin). by left.
  - subst rest. rewrite app_nil_r in Hfh. subst pre ys.
    by rewrite Hrun, !filter_nil, app_nil_r.
Qed.

Lemma run_without_repeat_witness :
  run {[ "ALA" ]} [remark_2; ala_n_1; gly_n_2; ala_ca_1]
  = Ok (filter (λ l, ¬ foreign {[ "ALA" ]} l)
          [remark_2; ala_n_1; gly_n_2; ala_ca_1]).
Proof.
  apply run_without_repeat.
  apply (bool_decide_unpack _). by vm_compute.
Defined.

(** ** Lines that are kept *)

Lemma filter_none (P : string → Prop) `{!∀ x, Decision (P x)}
    (l : list string) :
  (∀ x, x ∈ l → ¬ P x) → filter P l = [].
Proof.
  induction l as [|x l IH]; intros HP; [done|].
  rewrite filter_cons_False by (apply HP; by left).
  apply IH. intros y Hy. apply HP. by right.
Qed.

Lemma elem_of_replay_bucket ref lines x :
  x ∈ replay_bucket ref lines → x ∈ lines.
Proof.
  destruct lines as [|first tl]; [done|]. simpl.
  destruct (ref !! resname_of first) as [order|]; [|done].
  unfold grouped_by_atom, with_atom.
  intros (a & Hx & _)%list_elem_of_bind.
  by apply list_elem_of_filter in Hx as [_ Hx].
Qed.

Lemma elem_of_replay_group ref ms x :
  x ∈ (group_by_resid ms ≫= λ kv, replay_bucket ref kv.2) → x ∈ ms.
Proof.
  intros ([k lines] & Hx & Hkv)%list_elem_of_bind.
  apply elem_of_group_by_resid in Hkv as [_ ->].
  apply elem_of_replay_bucket in Hx.
  by apply list_elem_of_filter in Hx as [_ Hx].
Qed.

Lemma matching_not_foreign rs x : matching rs x → ¬ foreign rs x.
Proof.
  unfold matching, foreign.
  destruct (startswith x records), (bool_decide (resname_of x ∈ rs));
    simpl; tauto.
Qed.

(** What [run] yields of the lines that are not records of a selected
    residue: those the first loop yields, then those of the second phase. *)
Lemma run_filter_other rs fhandle ys ref bl rest
    (P : string → Prop) `{!∀ x, Decision (P x)} :
  (∀ x, P x → ¬ matching rs x) →
  first_loop rs fhandle ∅ = Ok (ys, ref, bl, rest) →
  ∃ out,
    run rs fhandle = Ok out
    ∧ filter P out = filter P ys ++ filter P (phase2_lines bl rest).
Proof.
  intros HP (_ & _ & _ & Hrun)%first_loop_inv.
  eexists. split; [exact Hrun|].
  rewrite !filter_app. f_equal.
  rewrite filter_none.
  - simpl. rewrite list_filter_filter. apply list_filter_iff.
    intros x. split; [tauto|]. intros Hx. split; [done|by apply HP].
  - intros x Hx%elem_of_replay_group HPx.
    apply list_elem_of_filter in Hx as [Hx _]. by apply (HP x).
Qed.

(** X4.  [run] keeps the lines that are not records: the sub-sequence of
    non-record lines of the output is that of the input, each line once and
    in the original order (they may move past record lines). *)
Theorem run_keeps_non_record_lines rs fhandle :
  ∃ out,
    run rs fhandle = Ok out
    ∧ filter (λ l, ¬ startswith l records) out
      = filter (λ l, ¬ startswith l records) fhandle.
Proof.
  destruct (run_spec rs fhandle)
    as (ys & ref & bl & rest & pre & Hloop & _ & _ & Hfh & Hys & _ & _).
  destruct (run_filter_other rs fhandle ys ref bl rest
              (λ l, ¬ startswith l records)) as (out & Hrun & Hout);
    [|done|].
  { intros x Hx Hm. apply Hx. unfold matching in Hm.
    by destruct (startswith x records). }
  exists out. split; [done|].
  rewrite Hout, Hfh, filter_app, Hys. f_equal.
  rewrite list_filter_filter. apply list_filter_iff.
  intros x. split; [tauto|]. intros Hx. split; [done|].
  unfold foreign. intros Hf. apply Hx. by destruct (startswith x records).
Qed.

(** X5.  Of the record lines of residues that are not selected, [run] yields
    exactly those that come after the line at which the first loop stopped,
    in their order; those read by the first loop are not yielded. *)
Theorem run_keeps_foreign_records_of_second_phase
    rs fhandle ys ref bl rest :
  first_loop rs fhandle ∅ = Ok (ys, ref, bl, rest) →
  ∃ out,
    run rs fhandle = Ok out
    ∧ filter (foreign rs) out = filter (foreign rs) rest.
Proof.
  intros Hloop.
  destruct (first_loop_facts _ _ _ _ _ _ Hloop)
    as (pre & _ & Hys & _ & _ & Hbl).
  destruct (run_filter_other rs fhandle ys ref bl rest (foreign rs))
    as (out & Hrun & Hout); [|done|].
  { intros x Hx Hm. by apply (matching_not_foreign rs x). }
  exists out. split; [done|]. rewrite Hout, Hys.
  rewrite (filter_none (foreign rs)).
  - destruct bl as [b|]; [|done]. simpl.
    rewrite filter_cons_False; [done|].
    destruct Hbl as [Hm _]. by apply matching_not_foreign.
  - intros x [Hx _]%list_elem_of_filter. done.
Qed.

Lemma run_keeps_foreign_records_of_second_phase_witness :
  ∃ out,
    run {[ "ALA" ]} [ala_n_1; gly_n_2; ala_n_3; gly_ca_3; remark_2] = Ok out
    ∧ filter (foreign {[ "ALA" ]}) out
      = filter (foreign {[ "ALA" ]}) [gly_ca_3; remark_2].
Proof.
  apply (run_keeps_foreign_records_of_second_phase _ _
           [ala_n_1] {[ "ALA" := ["N"] ]} (Some ala_n_3)).
  by vm_compute.
Defined.

(** ** Replay of a bucket *)

Lemma grouped_by_atom_perm order lines :
  NoDup order →
  grouped_by_atom order lines
  ≡ₚ filter (λ l, atom_name_of l ∈ order) lines.
Proof.
  intros Hnd. unfold grouped_by_atom, with_atom.
  by rewrite bind_filter_perm.
Qed.

(** X6.  For a duplicate-free atom order, the lines [sort_lines] returns
    are, as a multiset, the bucket's lines whose atom name is in the order:
    a line with any other atom name is left out, no line is repeated. *)
Theorem sort_lines_keeps_listed_atoms order lines :
  NoDup order →
  sort_lines order lines ≡ₚ filter (λ l, atom_name_of l ∈ order) lines.
Proof.
  intros Hnd. rewrite sort_lines_grouped. by apply grouped_by_atom_perm.
Qed.

Lemma sort_lines_keeps_listed_atoms_witness :
  sort_lines ["N"; "CA"] [ala_oxt_3; ala_ca_3; ala_n_3]
  ≡ₚ filter (λ l, atom_name_of l ∈ ["N"; "CA"])
       [ala_oxt_3; ala_ca_3; ala_n_3].
Proof.
  apply sort_lines_keeps_listed_atoms.
  apply (bool_decide_unpack _). by vm_compute.
Defined.

(** X7.  For a duplicate-free atom order, [sort_lines] is idempotent:
    sorting lines that are already sorted changes nothing. *)
Theorem sort_lines_idempotent order lines :
  NoDup order →
  sort_lines order (sort_lines order lines) = sort_lines order lines.
Proof.
  intros Hnd. rewrite !sort_lines_grouped. unfold grouped_by_atom at 1 3.
  apply Forall_bind_ext, Forall_forall. intros a Ha.
  by apply (filter_key_bind atom_name_of).
Qed.

Lemma sort_lines_idempotent_witness :
  sort_lines ["N"; "CA"]
    (sort_lines ["N"; "CA"] [ala_oxt_3; ala_ca_3; ala_n_3])
  = sort_lines ["N"; "CA"] [ala_oxt_3; ala_ca_3; ala_n_3].
Proof.
  apply sort_lines_idempotent.
  apply (bool_decide_unpack _). by vm_compute.
Defined.

(** ** The line at which the first loop stops *)

Lemma group_by_resid_cons b ms :
  group_by_resid (b :: ms)
  = (resid_of b, b :: with_resid (resid_of b) ms)
    :: ((λ k, (k, with_resid k (b :: ms)))
          <$> filter (λ y, y ≠ resid_of b) (first_seen (resid_of <$> ms))).
Proof.
  unfold group_by_resid. rewrite fmap_cons. cbn [first_seen].
  rewrite fmap_cons. unfold with_resid at 1.
  by rewrite filter_cons_True.
Qed.

(** X8.  The line at which the first loop stops is not lost: it is the
    first line of the first bucket, its residue name has a learned order,
    that order contains its atom name, and [run] yields it. *)
Theorem buffer_line_is_yielded rs fhandle ys ref b rest :
  first_loop rs fhandle ∅ = Ok (ys, ref, Some b, rest) →
  ∃ tl residue_lines held order out,
    collect rs fhandle
    = Ok (ys, ref, (resid_of b, b :: tl) :: residue_lines, held)
    ∧ ref !! resname_of b = Some order
    ∧ atom_name_of b ∈ order
    ∧ run rs fhandle = Ok out
    ∧ b ∈ out.
Proof.
  intros Hloop.
  destruct (first_loop_inv _ _ _ _ _ _ Hloop) as (_ & _ & Hcol & Hrun).
  destruct (first_loop_facts _ _ _ _ _ _ Hloop)
    as (pre & _ & _ & Href & _ & Hm & Hin).
  simpl in Hcol, Hrun.
  rewrite filter_cons_True, group_by_resid_cons in Hcol, Hrun by done.
  apply atom_key_seen in Hin.
  pose proof (Href (resname_of b)) as Hlook.
  destruct (atoms_seen rs (resname_of b) pre) as [|a order] eqn:Hseen.
  { by apply elem_of_nil in Hin. }
  eexists _, _, _, (a :: order), _.
  split; [exact Hcol|]. split; [done|]. split; [done|].
  split; [exact Hrun|].
  rewrite bind_cons. simpl. rewrite Hlook.
  rewrite !elem_of_app. right. left. left.
  unfold grouped_by_atom. apply list_elem_of_bind.
  exists (atom_name_of b). split; [|done].
  unfold with_atom. rewrite filter_cons_True by done. by left.
Qed.

Lemma buffer_line_is_yielded_witness :
  ∃ tl residue_lines held order out,
    collect {[ "ALA" ]} [ala_n_1; ala_ca_1; ala_ca_3; remark_2; ala_n_3]
    = Ok ([ala_n_1; ala_ca_1], {[ "ALA" := ["N"; "CA"] ]},
          (resid_of ala_ca_3, ala_ca_3 :: tl) :: residue_lines, held)
    ∧ ({[ "ALA" := ["N"; "CA"] ]} : gmap string (list string))
        !! resname_of ala_ca_3 = Some order
    ∧ atom_name_of ala_ca_3 ∈ order
    ∧ run {[ "ALA" ]} [ala_n_1; ala_ca_1; ala_ca_3; remark_2; ala_n_3]
      = Ok out
    ∧ ala_ca_3 ∈ out.
Proof.
  apply (buffer_line_is_yielded _ _ _ _ _ [remark_2; ala_n_3]).
  by vm_compute.
Defined.

(** ** When no line is lost *)

Lemma bind_perm_pointwise (f g : string → list string) keys :
  (∀ k, k ∈ keys → f k ≡ₚ g k) → keys ≫= f ≡ₚ keys ≫= g.
Proof.
  induction keys as [|k keys IH]; intros Hfg; [done|].
  rewrite !bind_cons. f_equiv.
  - apply Hfg. by left.
  - apply IH. intros k' Hk'. apply Hfg. by right.
Qed.

(** X9.  [run] yields a permutation of its input when the first loop read
    no record line of a residue that is not selected and every bucket
    whose first line has a learned residue name holds only lines with atom
    names of that learned order. *)
Theorem run_permutation rs pre bl rest ys ref residue_lines held :
  first_loop rs (pre ++ phase2_lines bl rest) ∅ = Ok (ys, ref, bl, rest) →
  collect rs (pre ++ phase2_lines bl rest)
  = Ok (ys, ref, residue_lines, held) →
  (∀ l, l ∈ pre → ¬ foreign rs l) →
  (∀ k lines first order,
     (k, lines) ∈ residue_lines →
     head lines = Some first →
     ref !! resname_of first = Some order →
     ∀ l, l ∈ lines → atom_name_of l ∈ order) →
  ∃ out,
    run rs (pre ++ phase2_lines bl rest) = Ok out
    ∧ out ≡ₚ pre ++ phase2_lines bl rest.
Proof.
  intros Hloop Hcol Hpre Hbuckets.
  destruct (first_loop_inv _ _ _ _ _ _ Hloop) as (Href & _ & Hcol' & Hrun).
  destruct (first_loop_facts _ _ _ _ _ _ Hloop) as (pre' & Hfh & Hys & _).
  apply app_inv_tail in Hfh as <-.
  rewrite Hcol in Hcol'. injection Hcol' as -> ->.
  eexists. split; [exact Hrun|].
  set (ph2 := phase2_lines bl rest) in *.
  set (ms := filter (matching rs) ph2) in *.
  rewrite Hys, filter_all by done. f_equiv.
  transitivity (ms ++ filter (λ l, ¬ matching rs l) ph2);
    [|by apply filter_app_complement].
  f_equiv. unfold group_by_resid. rewrite bind_tabulate.
  transitivity (first_seen (resid_of <$> ms) ≫= λ k, with_resid k ms);
    [|by apply group_by_resid_perm].
  apply bind_perm_pointwise. intros k Hk.
  rewrite elem_of_first_seen in Hk.
  assert ((k, with_resid k ms) ∈ group_by_resid ms) as Hin.
  { by apply elem_of_group_by_resid. }
  specialize (Hbuckets k (with_resid k ms)).
  destruct (with_resid k ms) as [|first tl]; [done|]. simpl.
  destruct (ref !! resname_of first) as [order|] eqn:Hlook; [|done].
  rewrite grouped_by_atom_perm by (by apply (Href _ _ Hlook)).
  rewrite filter_all; [done|]. by apply (Hbuckets first order).
Qed.

Lemma run_permutation_witness :
  ∃ out,
    run {[ "ALA" ]}
      ([ala_n_1; remark_2; ala_ca_1]
       ++ phase2_lines (Some ala_ca_3) [gly_n_2; ala_n_3])
    = Ok out
    ∧ out ≡ₚ [ala_n_1; remark_2; ala_ca_1]
             ++ phase2_lines (Some ala_ca_3) [gly_n_2; ala_n_3].
Proof.
  apply (run_permutation _ _ _ _ [ala_n_1; remark_2; ala_ca_1]
           {[ "ALA" := ["N"; "CA"] ]} [("3", [ala_ca_3; ala_n_3])]
           [gly_n_2]).
  - by vm_compute.
  - by vm_compute.
  - intros l Hl.
    repeat (apply elem_of_cons in Hl as [->|Hl]; [by vm_compute|]).
    by apply elem_of_nil in Hl.
  - intros k lines first order Hin Hhead Hlook l Hl.
    apply list_elem_of_singleton in Hin as [= -> ->].
    injection Hhead as <-.
    assert (order = ["N"; "CA"]) as -> by (vm_compute in Hlook; congruence).
    repeat (apply elem_of_cons in Hl as [->|Hl];
            [apply (bool_decide_unpack _); by vm_compute|]).
    by apply elem_of_nil in Hl.
Defined.

(** ** Appending to a bucket *)

Lemma od_lookup_update k' k v (d : odict) :
  od_lookup k' (od_update k v d)
  = if decide (k' = k)
    then match od_lookup k d with Some _ => Some v | None => None end
    else od_lookup k' d.
Proof.
  induction d as [|[k0 v0] d IH]; simpl.
  - by destruct (decide (k' = k)).
  - destruct (decide (k0 = k)) as [->|Hne0]; simpl.
    + destruct (decide (k = k')) as [<-|Hne].
      * by rewrite decide_True.
      * rewrite IH. destruct (decide (k' = k)) as [->|]; [|done].
        by destruct Hne.
    + destruct (decide (k0 = k')) as [<-|Hne].
      * by rewrite decide_False.
      * by rewrite IH.
Qed.

(** X10.  Appending a line to the bucket [resid] never raises, whatever the
    dictionary holds: afterwards the bucket is its former content (empty if
    the key was new) followed by the line, every other bucket is as before,
    and the key order is the former one, with a new key at the end. *)
Theorem bucket_append_lookup resid line (d : odict) :
  ∃ d',
    bucket_append resid line d = Ok d'
    ∧ od_lookup resid d' = Some (default [] (od_lookup resid d) ++ [line])
    ∧ (∀ k, k ≠ resid → od_lookup k d' = od_lookup k d)
    ∧ d'.*1 = match od_lookup resid d with
              | Some _ => d.*1
              | None => d.*1 ++ [resid]
              end.
Proof.
  assert (∀ v (d0 : odict), (od_update resid v d0).*1 = d0.*1) as Hkeys.
  { intros v d0. unfold od_update.
    rewrite <-list_fmap_compose. apply list_fmap_ext.
    intros i [k0 v0] _. simpl. by destruct (decide (k0 = resid)) as [->|]. }
  unfold bucket_append, od_getitem.
  destruct (od_lookup resid d) as [lines|] eqn:Hlook; simpl.
  - rewrite Hlook. simpl. eexists. split; [done|].
    split; [|split].
    + by rewrite od_lookup_update, decide_True, Hlook.
    + intros k Hk. by rewrite od_lookup_update, decide_False.
    + apply Hkeys.
  - assert (od_lookup resid (d ++ [(resid, [])]) = Some []) as Hnew.
    { rewrite od_lookup_app, Hlook. simpl. by rewrite decide_True. }
    rewrite Hnew. simpl. eexists. split; [done|].
    split; [|split].
    + by rewrite od_lookup_update, decide_True, Hnew.
    + intros k Hk. rewrite od_lookup_update, decide_False by done.
      rewrite od_lookup_app. destruct (od_lookup k d); [done|].
      simpl. by rewrite decide_False.
    + by rewrite Hkeys, fmap_app.
Qed.

(** * [check_input] *)

(** ** Stripping and upper case *)

Lemma isspace_upper_char c : isspace (upper_char c) = isspace c.
Proof. by destruct c as [[] [] [] [] [] [] [] []]. Qed.

Lemma upper_char_idem c : upper_char (upper_char c) = upper_char c.
Proof. by destruct c as [[] [] [] [] [] [] [] []]. Qed.

Lemma upper_char_comma c : upper_char c = ","%char ↔ c = ","%char.
Proof. by destruct c as [[] [] [] [] [] [] [] []]. Qed.

Lemma upper_idem s : upper (upper s) = upper s.
Proof.
  induction s as [|c s IH]; [done|]. simpl. by rewrite upper_char_idem, IH.
Qed.

Lemma upper_length s : String.length (upper s) = String.length s.
Proof. induction s as [|c s IH]; [done|]. simpl. by rewrite IH. Qed.

Lemma lstrip_upper s : lstrip (upper s) = upper (lstrip s).
Proof.
  induction s as [|c s IH]; [done|]. simpl.
  rewrite isspace_upper_char. by destruct (isspace c).
Qed.

Lemma rstrip_upper s : rstrip (upper s) = upper (rstrip s).
Proof.
  induction s as [|c s IH]; [done|]. simpl.
  rewrite IH, isspace_upper_char.
  destruct (rstrip s); simpl; [by destruct (isspace c)|done].
Qed.

Lemma strip_upper s : strip (upper s) = upper (strip s).
Proof. unfold strip. by rewrite lstrip_upper, rstrip_upper. Qed.

Lemma rstrip_cons_nonspace c s :
  isspace c = false → rstrip (String c s) = String c (rstrip s).
Proof. intros Hc. simpl. rewrite Hc. by destruct (rstrip s). Qed.

Lemma rstrip_idem s : rstrip (rstrip s) = rstrip s.
Proof.
  induction s as [|c s IH]; [done|]. simpl.
  destruct (rstrip s) as [|c' r] eqn:Hr.
  - destruct (isspace c) eqn:Hc; [done|]. simpl. by rewrite Hc.
  - simpl. simpl in IH. by rewrite IH.
Qed.

Lemma lstrip_head s :
  lstrip s = "" ∨ ∃ c r, lstrip s = String c r ∧ isspace c = false.
Proof.
  induction s as [|c s IH]; [by left|]. simpl.
  destruct (isspace c) eqn:Hc; [done|]. right. by exists c, s.
Qed.

Lemma strip_idem s : strip (strip s) = strip s.
Proof.
  unfold strip. destruct (lstrip_head s) as [->|(c & r & -> & Hc)]; [done|].
  rewrite rstrip_cons_nonspace by done. simpl lstrip. rewrite Hc.
  rewrite rstrip_cons_nonspace by done. by rewrite rstrip_idem.
Qed.

(** ** Splitting at commas *)

Lemma split_on_nonempty sep s : split_on sep s ≠ [].
Proof.
  induction s as [|c s IH]; [done|]. simpl.
  destruct (decide (c = sep)); [done|]. by destruct (split_on sep s).
Qed.

Lemma split_on_app sep a b :
  split_on sep (a +:+ String sep b) = split_on sep a ++ split_on sep b.
Proof.
  induction a as [|c a IH]; simpl.
  - by rewrite decide_True.
  - rewrite IH. destruct (decide (c = sep)); [done|].
    pose proof (split_on_nonempty sep a). by destruct (split_on sep a).
Qed.

Lemma split_on_upper s :
  split_on "," (upper s) = upper <$> split_on "," s.
Proof.
  induction s as [|c s IH]; [done|]. simpl. rewrite IH.
  destruct (decide (c = ","%char)) as [->|Hne].
  - done.
  - rewrite decide_False by (by rewrite upper_char_comma).
    by destruct (split_on "," s).
Qed.

(** ** The residue-name set *)

(** X11.  Residue names are given separated by commas, and the set is the
    union of the sets of the parts: the order of the names and their
    repetition do not matter. *)
Theorem parse_option_comma a b :
  is_ascii a → is_ascii b →
  parse_option (a +:+ "," +:+ b) = parse_option a ∪ parse_option b.
Proof.
  intros _ _. unfold parse_option.
  change ("," +:+ b) with (String ","%char b).
  by rewrite split_on_app, filter_app, fmap_app, list_to_set_app_L.
Qed.

Lemma parse_option_comma_witness :
  parse_option ("gly,ala" +:+ "," +:+ "ala , ser")
  = parse_option "gly,ala" ∪ parse_option "ala , ser".
Proof. apply parse_option_comma; by vm_compute. Defined.

Lemma parse_option_upper o : parse_option (upper o) = parse_option o.
Proof.
  unfold parse_option. rewrite split_on_upper. f_equal.
  induction (split_on "," o) as [|w ws IH]; [done|].
  rewrite fmap_cons, !filter_cons, strip_upper.
  destruct (decide (strip w ≠ "")) as [Hw|Hw].
  - rewrite decide_True.
    + rewrite !fmap_cons, upper_idem. by f_equal.
    + intros Hu. apply Hw. apply (f_equal String.length) in Hu.
      rewrite upper_length in Hu. by destruct (strip w).
  - rewrite decide_False; [done|].
    intros Hu. apply Hu. apply dec_stable in Hw. by rewrite Hw.
Qed.

(** X12.  The option is read without regard to case: two option texts
    that differ only in the case of their letters give the same set. *)
Theorem parse_option_case_insensitive o1 o2 :
  is_ascii o1 → is_ascii o2 →
  upper o1 = upper o2 → parse_option o1 = parse_option o2.
Proof.
  intros _ _ Heq.
  by rewrite <-(parse_option_upper o1), <-(parse_option_upper o2), Heq.
Qed.

Lemma parse_option_case_insensitive_witness :
  parse_option "Ala,gLY" = parse_option "aLA,Gly".
Proof. apply parse_option_case_insensitive; by vm_compute. Defined.

Lemma elem_of_parse_option x option :
  x ∈ parse_option option
  ↔ ∃ o, o ∈ split_on "," option ∧ strip o ≠ "" ∧ x = strip (upper o).
Proof.
  unfold parse_option. rewrite elem_of_list_to_set, list_elem_of_fmap.
  split.
  - intros (o & -> & [Hne Ho]%list_elem_of_filter). by exists o.
  - intros (o & Ho & Hne & ->). exists o. split; [done|].
    by apply list_elem_of_filter.
Qed.

(** X13.  Every name of the set that [parse_option] builds is not empty,
    has no white space at its ends and no lower-case letter. *)
Theorem parse_option_normalised option x :
  is_ascii option →
  x ∈ parse_option option →
  x ≠ "" ∧ strip x = x ∧ upper x = x.
Proof.
  intros _ (o & _ & Hne & ->)%elem_of_parse_option. split; [|split].
  - rewrite strip_upper. intros Hu. apply Hne.
    apply (f_equal String.length) in Hu. rewrite upper_length in Hu.
    by destruct (strip o).
  - apply strip_idem.
  - by rewrite strip_upper, upper_idem.
Qed.

Lemma parse_option_normalised_witness :
  "ALA" ≠ "" ∧ strip "ALA" = "ALA" ∧ upper "ALA" = "ALA".
Proof.
  apply (parse_option_normalised " gly, ala ,").
  - by vm_compute.
  - apply (bool_decide_unpack _). by vm_compute.
Defined.

(** ** When [check_input] returns *)

Lemma validate_Return fh (option_set : gset string) fh' option_set' :
  validate fh option_set = Return (fh', option_set')
  ↔ fh' = fh ∧ option_set' = option_set
    ∧ option_set ≠ ∅
    ∧ ∀ x, x ∈ option_set → (String.length x ≤ 3)%nat.
Proof.
  unfold validate. destruct (decide (option_set = ∅)) as [->|Hne].
  { split; [done|]. by intros (_ & _ & ? & _). }
  destruct (List.find _ (elements option_set)) as [elem|] eqn:Hfind.
  - split; [done|]. intros (_ & _ & _ & Hlen).
    apply List.find_some in Hfind as [Hin Hlong].
    apply list_elem_of_In, elem_of_elements, Hlen in Hin.
    apply Nat.ltb_lt in Hlong. lia.
  - split.
    + intros [= <- <-]. split_and!; try done. intros x Hx.
      apply elem_of_elements, list_elem_of_In in Hx.
      apply (List.find_none _ _ Hfind) in Hx. apply Nat.ltb_ge in Hx. lia.
    + by intros (-> & -> & _).
Qed.

Lemma validate_code fh option_set code stderr :
  validate fh option_set = Exit code stderr → code = 1%nat.
Proof.
  unfold validate. destruct (decide _); [by intros [= <- _]|].
  destruct (List.find _ _); [by intros [= <- _]|done].
Qed.

(** X14.  [check_input] returns exactly when the first argument is an
    option, that is starts with [-], its names form a non-empty set of names
    of at most three characters, and either it is the only argument and
    standard input is not a terminal, or a second argument names a file
    that exists.  It then returns that set with standard input, or with the
    file. *)
Theorem check_input_returns_iff e args fh option_set :
  Forall is_ascii args →
  check_input e args = Return (fh, option_set)
  ↔ ∃ a0,
      String.prefix "-" a0
      ∧ option_set = parse_option (from_1 a0)
      ∧ option_set ≠ ∅
      ∧ (∀ x, x ∈ option_set → (String.length x ≤ 3)%nat)
      ∧ ((args = [a0] ∧ isatty e = false ∧ fh = Stdin)
         ∨ ∃ path, args = [a0; path] ∧ isfile e path = true
                   ∧ fh = File path).
Proof.
  intros _. unfold check_input, read_args.
  assert (parse_option "" = ∅) as Hempty by by vm_compute.
  destruct args as [|a0 [|a1 [|a2 args]]].
  - (* no argument *)
    split; [|by intros (a0 & _ & _ & _ & _ & [[? _]|(? & ? & _)])].
    destruct (isatty e); [done|].
    rewrite validate_Return, Hempty. by intros (_ & _ & ? & _).
  - (* one argument *)
    destruct (String.prefix "-" a0) eqn:Hdash.
    + destruct (isatty e) eqn:Htty.
      * split; [done|].
        by intros (? & _ & _ & _ & _ & [([= <-] & ? & _)|(? & ? & _)]).
      * rewrite validate_Return. split.
        -- intros (-> & -> & Hne & Hlen). exists a0.
           rewrite Hdash. split_and!; try done. by left.
        -- intros (a & _ & -> & Hne & Hlen & [([= <-] & _ & ->)|(? & ? & _)]);
             done.
    + split.
      * destruct (isfile e a0); simpl; [|done].
        rewrite validate_Return, Hempty. by intros (_ & _ & ? & _).
      * intros (a & Ha & _ & _ & _ & [([= <-] & _)|(? & ? & _)]); [|done].
        by rewrite Hdash in Ha.
  - (* two arguments *)
    destruct (String.prefix "-" a0) eqn:Hdash; simpl.
    + destruct (isfile e a1) eqn:Hfile; simpl.
      * rewrite validate_Return. split.
        -- intros (-> & -> & Hne & Hlen). exists a0.
           rewrite Hdash. split_and!; try done. right. by exists a1.
        -- intros (a & _ & -> & Hne & Hlen
                   & [(? & _)|(p & [= <- <-] & _ & ->)]); done.
      * split; [done|].
        intros (a & _ & _ & _ & _ & [(? & _)|(p & [= <- <-] & Hp & _)]);
          [done|]. by rewrite Hfile in Hp.
    + split; [done|].
      intros (a & Ha & _ & _ & _ & [(? & _)|(p & [= <- <-] & _)]); [done|].
      by rewrite Hdash in Ha.
  - (* more *)
    split; [done|].
    by intros (a & _ & _ & _ & _ & [(? & _)|(p & ? & _)]).
Qed.

Lemma check_input_returns_iff_witness :
  check_input {| isatty := true; isfile := λ p, bool_decide (p = "1ctf.pdb") |}
    ["-ala,gly"; "1ctf.pdb"]
  = Return (File "1ctf.pdb", {[ "ALA"; "GLY" ]}).
Proof.
  apply check_input_returns_iff.
  - repeat constructor.
  - exists "-ala,gly". split_and!.
    + by vm_compute.
    + by vm_compute.
    + by vm_compute.
    + intros x Hx. apply elem_of_union in Hx as [Hx|Hx];
        apply elem_of_singleton in Hx as ->; simpl; lia.
    + right. by exists "1ctf.pdb".
Defined.

Lemma check_input_code e args code stderr :
  check_input e args = Exit code stderr → code = 1%nat.
Proof.
  unfold check_input.
  destruct (read_args e args) as [[option fh]|code' stderr'] eqn:Hread.
  - apply validate_code.
  - intros [= <- <-]. unfold read_args in Hread.
    repeat (case_match; simplify_eq); done.
Qed.

(** X15.  [check_input] leaves with status 1 whenever it does not return,
    and it never returns without an option: with no argument, or with a
    file name as the only argument, the option is the empty default and the
    call ends in [sys.exit(1)]. *)
Theorem check_input_needs_option e args :
  Forall is_ascii args →
  (∀ code stderr, check_input e args = Exit code stderr → code = 1%nat)
  ∧ (¬ String.prefix "-" (default "" (head args)) →
     ∃ stderr, check_input e args = Exit 1 stderr).
Proof.
  intros _. split.
  - intros code stderr. apply check_input_code.
  - intros Hdash. unfold check_input, read_args.
    assert (parse_option "" = ∅) as Hempty by by vm_compute.
    destruct args as [|a0 [|a1 [|a2 args]]]; simpl in Hdash.
    + destruct (isatty e); [by eexists|].
      unfold validate. rewrite Hempty. by eexists.
    + destruct (String.prefix "-" a0); [done|].
      destruct (isfile e a0); simpl; [|by eexists].
      unfold validate. rewrite Hempty. by eexists.
    + destruct (String.prefix "-" a0); [done|]. by eexists.
    + by eexists.
Qed.

Lemma check_input_needs_option_witness :
  (∀ code stderr,
     check_input {| isatty := false; isfile := λ _, true |} ["1ctf.pdb"]
     = Exit code stderr → code = 1%nat)
  ∧ (¬ String.prefix "-" (default "" (head ["1ctf.pdb"])) →
     ∃ stderr,
       check_input {| isatty := false; isfile := λ _, true |} ["1ctf.pdb"]
       = Exit 1 stderr).
Proof. apply check_input_needs_option. repeat constructor. Defined.

(** * [main] *)

(** ** The write buffer *)

Lemma mod_succ (size n : nat) :
  (0 < size)%nat →
  (S n mod size
   = if (S (n mod size) =? size)%nat then 0 else S (n mod size))%nat.
Proof.
  intros Hsize.
  pose proof (Nat.div_mod_eq n size) as Hdiv.
  pose proof (Nat.mod_upper_bound n size) as Hlt.
  destruct (Nat.eqb_spec (S (n mod size)) size) as [Heq|Hne].
  - replace (S n) with (S (n / size) * size)%nat by nia.
    apply Nat.Div0.mod_mul.
  - symmetry. apply (Nat.mod_unique _ _ (n / size)); lia.
Qed.

Lemma stdout_write_cases pipe (_buffer : list string) stdout :
  stdout_write pipe _buffer stdout = Some (stdout ++ [_buffer])
  ∨ (stdout_write pipe _buffer stdout = None ∧ pipe ≠ None).
Proof.
  unfold stdout_write. destruct pipe as [n|]; [|by left].
  destruct (List.length stdout <? n)%nat; [by left|by right].
Qed.

(** The calls made are complete when the loop ends normally, and carry a
    prefix of the lines when a call fails. *)
Lemma write_loop_joined pipe size lineno new_pdb (_buffer : list string)
    stdout :
  match write_loop pipe size lineno new_pdb _buffer stdout with
  | Done _buffer' stdout' =>
      mjoin (stdout' ++ [_buffer']) = mjoin (stdout ++ [_buffer]) ++ new_pdb
  | Broken stdout' =>
      pipe ≠ None
      ∧ mjoin stdout' `prefix_of` mjoin (stdout ++ [_buffer]) ++ new_pdb
  end.
Proof.
  revert lineno _buffer stdout.
  induction new_pdb as [|line new_pdb IH]; intros lineno buf out; simpl.
  - by rewrite app_nil_r.
  - destruct (lineno mod size =? 0)%nat.
    + destruct (stdout_write_cases pipe buf out) as [->|[-> Hpipe]].
      * specialize (IH (S lineno) [line] (out ++ [buf])).
        rewrite !join_app in IH. simpl in IH. rewrite !app_nil_r in IH.
        rewrite <-!app_assoc in IH. simpl in IH.
        rewrite !join_app. simpl. rewrite !app_nil_r, <-!app_assoc.
        exact IH.
      * split; [done|]. rewrite join_app, <-app_assoc. by eexists.
    + specialize (IH (S lineno) (buf ++ [line]) out).
      rewrite !join_app in IH. simpl in IH. rewrite !app_nil_r in IH.
      rewrite <-!app_assoc in IH. simpl in IH.
      rewrite !join_app. simpl. rewrite !app_nil_r, <-!app_assoc.
      exact IH.
Qed.

Lemma write_loop_bounded pipe size lineno new_pdb (_buffer : list string)
    stdout :
  (0 < size)%nat →
  (List.length _buffer
   ≤ if (lineno mod size =? 0)%nat then size else lineno mod size)%nat →
  Forall (λ chunk, (List.length chunk ≤ size)%nat) stdout →
  match write_loop pipe size lineno new_pdb _buffer stdout with
  | Done _buffer' stdout' =>
      Forall (λ chunk, (List.length chunk ≤ size)%nat)
        (stdout' ++ [_buffer'])
  | Broken stdout' =>
      Forall (λ chunk, (List.length chunk ≤ size)%nat) stdout'
  end.
Proof.
  intros Hsize. revert lineno _buffer stdout.
  induction new_pdb as [|line new_pdb IH]; intros lineno buf out Hbuf Hout.
  - simpl. apply Forall_app. split; [done|].
    apply Forall_singleton.
    pose proof (Nat.mod_upper_bound lineno size).
    destruct (lineno mod size =? 0)%nat; lia.
  - cbn [write_loop]. pose proof (mod_succ size lineno Hsize) as Hsucc.
    pose proof (Nat.mod_upper_bound lineno size) as Hlt.
    destruct (Nat.eqb_spec (lineno mod size) 0) as [Hz|Hnz].
    + destruct (stdout_write_cases pipe buf out) as [->|[-> _]]; [|done].
      apply IH.
      * rewrite Hsucc, Hz.
        destruct (Nat.eqb_spec 1 size) as [<-|]; cbn; lia.
      * apply Forall_app. split; [done|]. apply Forall_singleton. lia.
    + apply IH; [|done].
      rewrite length_app, Hsucc. cbn [List.length].
      destruct (Nat.eqb_spec (S (lineno mod size)) size) as [Heq|Hne].
      * change (0 =? 0)%nat with true. cbv iota. lia.
      * change (S (lineno mod size) =? 0)%nat with false. cbv iota. lia.
Qed.

(** ** From the command line to the output *)

Lemma main_Return e pipe stdin files args pdbfh resname_set :
  check_input e args = Return (pdbfh, resname_set) →
  ∃ new_pdb stdout,
    run resname_set
      match pdbfh with Stdin => stdin | File path => files path end
    = Ok new_pdb
    ∧ main e pipe stdin files args = Exited 0 stdout []
    ∧ Forall (λ chunk, (List.length chunk ≤ 5000)%nat) stdout
    ∧ mjoin stdout `prefix_of` new_pdb
    ∧ (pipe = None → mjoin stdout = new_pdb).
Proof.
  intros Hcheck. unfold main. rewrite Hcheck.
  set (fhandle := match pdbfh with Stdin => stdin | File path => files path end).
  destruct (run_spec resname_set fhandle)
    as (ys & ref & bl & rest & pre & _ & _ & _ & _ & _ & _ & Hrun).
  rewrite Hrun. cbv zeta.
  match goal with |- context [Ok ?out] => set (new_pdb := out) end.
  generalize (write_loop_joined pipe 5000 0 new_pdb [] []).
  generalize (write_loop_bounded pipe 5000 0 new_pdb [] [] ltac:(lia)).
  destruct (write_loop pipe 5000 0 new_pdb [] []) as [buf out|out].
  - intros Hbound Hjoin. simpl in Hjoin.
    assert (Forall (λ chunk, (List.length chunk ≤ 5000)%nat) (out ++ [buf]))
      as Hall by (apply Hbound; [simpl; lia|constructor]).
    destruct (stdout_write_cases pipe buf out) as [->|[-> Hpipe]].
    + exists new_pdb, (out ++ [buf]). split_and!; try done.
      by rewrite Hjoin.
    + exists new_pdb, out. split_and!; try done.
      * by apply Forall_app in Hall as [? _].
      * rewrite <-Hjoin, join_app. by eexists.
  - intros Hbound [Hpipe Hjoin]. simpl in Hjoin.
    exists new_pdb, out. split_and!; try done.
    apply Hbound; [simpl; lia|constructor].
Qed.

(** X16.  When [check_input] returns, [main] exits with status 0 and writes
    nothing to standard error.  The calls of [sys.stdout.write] that
    succeed carry, call after call, a prefix of the lines that [run] yields
    for the chosen input and set, and all of these lines, in order and each
    once, when no call fails; no call writes more than 5000 lines. *)
Theorem main_writes_run_output e pipe stdin files args pdbfh resname_set :
  Forall is_ascii args →
  check_input e args = Return (pdbfh, resname_set) →
  ∃ new_pdb stdout,
    run resname_set
      match pdbfh with Stdin => stdin | File path => files path end
    = Ok new_pdb
    ∧ main e pipe stdin files args = Exited 0 stdout []
    ∧ Forall (λ chunk, (List.length chunk ≤ 5000)%nat) stdout
    ∧ mjoin stdout `prefix_of` new_pdb
    ∧ (pipe = None → mjoin stdout = new_pdb).
Proof. intros _. apply main_Return. Qed.

Lemma main_writes_run_output_witness :
  ∃ new_pdb stdout,
    run {[ "ALA" ]}
      match File "1ctf.pdb" with
      | Stdin => []
      | File path => [ala_n_1; remark_2; ala_n_3]
      end
    = Ok new_pdb
    ∧ main {| isatty := true; isfile := λ _, true |} None []
        (λ path, [ala_n_1; remark_2; ala_n_3]) ["-ala"; "1ctf.pdb"]
      = Exited 0 stdout []
    ∧ Forall (λ chunk, (List.length chunk ≤ 5000)%nat) stdout
    ∧ mjoin stdout `prefix_of` new_pdb
    ∧ ((None : option nat) = None → mjoin stdout = new_pdb).
Proof.
  apply (main_writes_run_output
           {| isatty := true; isfile := λ _, true |} None []
           (λ path, [ala_n_1; remark_2; ala_n_3]) ["-ala"; "1ctf.pdb"]
           (File "1ctf.pdb") {[ "ALA" ]}).
  - repeat constructor.
  - by vm_compute.
Defined.

(** X17.  [main] never ends in an exception of [run].  It exits with
    status 0 when [check_input] returns, and otherwise with status 1, the
    messages of [check_input] on standard error and nothing written to
    standard output. *)
Theorem main_exit_status e pipe stdin files args :
  Forall is_ascii args →
  ∃ code stdout stderr,
    main e pipe stdin files args = Exited code stdout stderr
    ∧ ((code = 0%nat ∧ stderr = []
        ∧ ∃ pdbfh resname_set,
            check_input e args = Return (pdbfh, resname_set))
       ∨ (code = 1%nat ∧ stdout = []
          ∧ check_input e args = Exit 1 stderr)).
Proof.
  intros Hascii.
  destruct (check_input e args) as [[pdbfh rs]|code stderr] eqn:Hcheck.
  - destruct (main_Return e pipe stdin files args pdbfh rs Hcheck)
      as (new_pdb & stdout & _ & Hmain & _).
    exists 0%nat, stdout, []. split; [done|]. left. eauto.
  - exists code, [], stderr. unfold main. rewrite Hcheck.
    split; [done|]. right.
    by rewrite (check_input_code e args code stderr Hcheck).
Qed.

Lemma main_exit_status_witness :
  ∃ code stdout stderr,
    main {| isatty := false; isfile := λ _, true |} (Some 1%nat) [ala_n_1]
      (λ _, []) ["-alanine"]
    = Exited code stdout stderr
    ∧ ((code = 0%nat ∧ stderr = []
        ∧ ∃ pdbfh resname_set,
            check_input {| isatty := false; isfile := λ _, true |}
              ["-alanine"]
            = Return (pdbfh, resname_set))
       ∨ (code = 1%nat ∧ stdout = []
          ∧ check_input {| isatty := false; isfile := λ _, true |}
              ["-alanine"]
            = Exit 1 stderr)).
Proof. apply main_exit_status. repeat constructor. Defined.
